(** * PySM dust models: a shallow embedding of [dust.py] and [spdust.py]

    Numbers.  A finite [float64] is a real number; rounding, overflow and
    underflow are not modelled.  Where the code can divide by zero or take the
    logarithm of a non-positive number (the frequency correlation model,
    the spinning-dust scaling) the IEEE special values that numpy produces
    are kept as [PInf], [NInf] and [NaN]; signed zeros are not
    distinguished.  The modified-blackbody scaling is computed on reals.

    Units.  astropy's [Quantity] and the [quantity_input] decorators are
    erased: a frequency is a number of GHz, a temperature a number of K.

    Arrays.  An ndarray of rank [k] is a list nested [k] times, so its
    rank is part of its type; [x[None, ...]] wraps a value in a list of
    length 1 and broadcasting stretches axes of length 1.

    Objects.  An instance of the classes of [dust.py] is its attribute
    dictionary; private names are stored under their mangled names.

    Compiled code.  The functions of [spdust.py] under [@njit] are
    modelled for a peak-frequency map, that is for array arguments; under
    [parallel=True] an element-wise operation on two arrays requires equal
    sizes.

    Outcomes.  A call returns a value, raises an exception or, in the
    model only, is [Stuck]: the loop of [invert_safe] has run out of fuel
    or a non-finite number would have reached the eigensolver. *)

From Stdlib Require Import Reals Lra Lia List Arith Bool String.
From stdpp Require Import base gmap strings.
Import ListNotations.
Local Open Scope R_scope.

(** ** numpy scalars *)

Module XR.

Inductive xreal : Type :=
| Fin (r : R)
| PInf
| NInf
| NaN.

Definition is_finite (x : xreal) : Prop :=
  match x with Fin _ => True | _ => False end.

(** Sign of a real used by the IEEE rules for infinities. *)
Inductive sign := Neg | Zero | Pos.

Definition sgn (r : R) : sign :=
  if Rlt_dec r 0 then Neg else if Rlt_dec 0 r then Pos else Zero.

Definition signed_inf (s1 s2 : sign) : xreal :=
  match s1, s2 with
  | Zero, _ | _, Zero => NaN
  | Pos, Pos | Neg, Neg => PInf
  | _, _ => NInf
  end.

Definition xsign (x : xreal) : option sign :=
  match x with
  | Fin r => Some (sgn r)
  | PInf => Some Pos
  | NInf => Some Neg
  | NaN => None
  end.

(** [a * b] *)
Definition xmul (a b : xreal) : xreal :=
  match a, b with
  | NaN, _ | _, NaN => NaN
  | Fin x, Fin y => Fin (x * y)
  | _, _ =>
      match xsign a, xsign b with
      | Some s, Some t => signed_inf s t
      | _, _ => NaN
      end
  end.

(** [a / b]; a finite number over zero is an infinity, [0 / 0] is [NaN]. *)
Definition xdiv (a b : xreal) : xreal :=
  match a, b with
  | NaN, _ | _, NaN => NaN
  | Fin x, Fin y =>
      match sgn y with
      | Zero => signed_inf (sgn x) Pos
      | _ => Fin (x / y)
      end
  | Fin _, _ => Fin 0
  | _, Fin y =>
      match xsign a, sgn y with
      | Some s, Zero => signed_inf s Pos
      | Some s, t => signed_inf s t
      | None, _ => NaN
      end
  | _, _ => NaN
  end.

(** [x ** 2] *)
Definition xsquare (a : xreal) : xreal := xmul a a.

(** [np.exp] *)
Definition xexp (a : xreal) : xreal :=
  match a with
  | Fin x => Fin (exp x)
  | PInf => PInf
  | NInf => Fin 0
  | NaN => NaN
  end.

(** [np.log] *)
Definition xlog (a : xreal) : xreal :=
  match a with
  | Fin x =>
      match sgn x with
      | Pos => Fin (ln x)
      | Zero => NInf
      | Neg => NaN
      end
  | PInf => PInf
  | NInf => NaN
  | NaN => NaN
  end.

Lemma sgn_pos (r : R) : 0 < r -> sgn r = Pos.
Proof.
  intros H. unfold sgn.
  destruct (Rlt_dec r 0) as [Hn|_]; [lra|].
  destruct (Rlt_dec 0 r) as [_|Hn]; [reflexivity|lra].
Qed.

Lemma sgn_neg (r : R) : r < 0 -> sgn r = Neg.
Proof.
  intros H. unfold sgn.
  destruct (Rlt_dec r 0) as [_|Hn]; [reflexivity|lra].
Qed.

Lemma sgn_zero : sgn 0 = Zero.
Proof.
  unfold sgn.
  destruct (Rlt_dec 0 0) as [Hn|_]; [lra|reflexivity].
Qed.

Lemma sgn_nonzero (r : R) : r <> 0 -> sgn r <> Zero.
Proof.
  intros H. destruct (Rtotal_order r 0) as [Hlt|[Heq|Hgt]].
  - rewrite sgn_neg by assumption. discriminate.
  - contradiction.
  - rewrite sgn_pos by lra. discriminate.
Qed.

Lemma xdiv_fin (x y : R) : y <> 0 -> xdiv (Fin x) (Fin y) = Fin (x / y).
Proof.
  intros H. simpl. pose proof (sgn_nonzero y H) as Hs.
  destruct (sgn y); [reflexivity|contradiction|reflexivity].
Qed.

Lemma xdiv_zero_zero : xdiv (Fin 0) (Fin 0) = NaN.
Proof. simpl. rewrite sgn_zero. reflexivity. Qed.

Lemma xlog_fin (x : R) : 0 < x -> xlog (Fin x) = Fin (ln x).
Proof. intros H. simpl. rewrite sgn_pos by assumption. reflexivity. Qed.

End XR.
Import XR.

(** ** Arrays

    A one-dimensional ndarray is a list, a two-dimensional one a list of
    rows. *)

Abbreviation vec A := (list A).
Abbreviation matrix A := (list (list A)).

(** [a[:, None] op b[None, :]]: numpy broadcasting of a column against a
    row. *)
Definition outer {A B C : Type} (f : A -> B -> C) (a : list A) (b : list B)
  : matrix C :=
  map (fun x => map (f x) b) a.

Definition mmap {A B : Type} (f : A -> B) (m : matrix A) : matrix B :=
  map (map f) m.

(** Entry [(i, j)] of a matrix, [d] outside of it. *)
Definition entry {A : Type} (d : A) (m : matrix A) (i j : nat) : A :=
  nth j (nth i m []) d.

Lemma outer_length {A B C} (f : A -> B -> C) a b :
  length (outer f a b) = length a.
Proof. unfold outer. now rewrite length_map. Qed.

Lemma entry_outer {A B C} (f : A -> B -> C) a b da db dc i j :
  (i < length a)%nat -> (j < length b)%nat ->
  entry dc (outer f a b) i j = f (nth i a da) (nth j b db).
Proof.
  intros Hi Hj. unfold entry, outer.
  rewrite (nth_indep _ [] (map (f da) b)) by now rewrite length_map.
  rewrite (map_nth (fun x => map (f x) b)).
  rewrite (nth_indep _ dc (f (nth i a da) db)) by now rewrite length_map.
  now rewrite map_nth.
Qed.

Lemma row_mmap {A B} (f : A -> B) (m : matrix A) i :
  nth i (mmap f m) [] = map f (nth i m []).
Proof. unfold mmap. exact (map_nth (map f) m [] i). Qed.

Lemma row_outer {A B C} (f : A -> B -> C) a b da i :
  (i < length a)%nat -> nth i (outer f a b) [] = map (f (nth i a da)) b.
Proof.
  intros Hi. unfold outer.
  rewrite (nth_indep _ [] ((fun x => map (f x) b) da)) by now rewrite length_map.
  exact (map_nth (fun x => map (f x) b) a da i).
Qed.

Lemma entry_mmap {A B} (f : A -> B) m da db i j :
  (j < length (nth i m []))%nat ->
  entry db (mmap f m) i j = f (entry da m i j).
Proof.
  intros Hj. unfold entry. rewrite row_mmap.
  rewrite (nth_indep _ db (f da)) by now rewrite length_map.
  now rewrite map_nth.
Qed.

Lemma row_outer_length {A B C} (f : A -> B -> C) a b i :
  (i < length a)%nat -> length (nth i (outer f a b) []) = length b.
Proof.
  intros Hi. destruct a as [|a0 a']; [simpl in Hi; lia|].
  rewrite (row_outer f _ b a0) by assumption. now rewrite length_map.
Qed.

(** ** Frequency decorrelation model ([dust.py], lines 157-164) *)

(** [frequency_decorr_model(freqs, correlation_length)]:
    [log_dep = np.log(freqs[:, None] / freqs[None, :])], then
    [np.exp(- 0.5 * (log_dep / correlation_length) ** 2)]. *)
Definition frequency_decorr_model (freqs : vec R) (correlation_length : R)
  : matrix xreal :=
  let log_dep := mmap xlog (outer (fun a b => xdiv (Fin a) (Fin b)) freqs freqs) in
  mmap (fun d => xexp (xmul (Fin (- 0.5))
                         (xsquare (xdiv d (Fin correlation_length)))))
       log_dep.

Lemma frequency_decorr_model_entry freqs L i j :
  (i < length freqs)%nat -> (j < length freqs)%nat ->
  entry NaN (frequency_decorr_model freqs L) i j =
  xexp (xmul (Fin (- 0.5))
          (xsquare (xdiv (xlog (xdiv (Fin (nth i freqs 0)) (Fin (nth j freqs 0))))
                         (Fin L)))).
Proof.
  intros Hi Hj. unfold frequency_decorr_model.
  rewrite (entry_mmap _ _ NaN).
  - rewrite (entry_mmap _ _ NaN).
    + now rewrite (entry_outer _ _ _ 0 0).
    + now rewrite row_outer_length.
  - now rewrite row_mmap, length_map, row_outer_length.
Qed.

Lemma frequency_decorr_model_shape freqs L :
  length (frequency_decorr_model freqs L) = length freqs /\
  forall i, (i < length freqs)%nat ->
    length (nth i (frequency_decorr_model freqs L) []) = length freqs.
Proof.
  unfold frequency_decorr_model. split.
  - unfold mmap. now rewrite !length_map, outer_length.
  - intros i Hi. now rewrite !row_mmap, !length_map, row_outer_length.
Qed.

(** ** Python values, exceptions and objects *)

Inductive exn : Type :=
| AttributeError (name : string)
| TypeError
| ValueError
| AssertionError
| InvalidFrequencyInput.

(** Outcome of a call: a value, an exception, or [Stuck] when the model
    gives no answer: the [while] loop of [invert_safe] has not finished
    within the fuel, or a non-finite number would reach the eigensolver. *)
Inductive stuck : Type := OutOfFuel | NonFinite.

Inductive result (A : Type) : Type :=
| Ok (a : A)
| Raise (e : exn)
| Stuck (s : stuck).
Arguments Ok {A} a.
Arguments Raise {A} e.
Arguments Stuck {A} s.

Definition bind {A B : Type} (m : result A) (k : A -> result B) : result B :=
  match m with
  | Ok a => k a
  | Raise e => Raise e
  | Stuck s => Stuck s
  end.

Definition is_ok {A : Type} (m : result A) : bool :=
  match m with Ok _ => true | _ => false end.

Notation "'let*' x ':=' m 'in' k" := (bind m (fun x => k))
  (at level 10, x pattern, m at level 100, k at level 200).

Inductive pyval : Type :=
| PNone
| PNum (r : R)
| PPath (p : string)
| PArr1 (v : vec R)
| PArr2 (m : matrix R)
| PComm.

(** An instance is its [__dict__].  The classes of [dust.py] define only
    methods, so every data attribute is looked up in the instance
    dictionary; an absent name raises [AttributeError]. *)
Abbreviation pyobj := (gmap string pyval).

Definition getattr (self : pyobj) (name : string) : result pyval :=
  match self !! name with
  | Some v => Ok v
  | None => Raise (AttributeError name)
  end.

Definition setattr (self : pyobj) (name : string) (v : pyval) : pyobj :=
  <[name := v]> self.

Definition as_num (v : pyval) : result R :=
  match v with PNum r => Ok r | _ => Raise TypeError end.

Definition as_arr1 (v : pyval) : result (vec R) :=
  match v with PArr1 a => Ok a | _ => Raise TypeError end.

Definition as_arr2 (v : pyval) : result (matrix R) :=
  match v with PArr2 a => Ok a | _ => Raise TypeError end.

(** [float(x)] on the values a constructor can receive. *)
Definition py_float (v : pyval) : result R :=
  match v with PNum r => Ok r | _ => Raise TypeError end.

(** ** Collaborators outside of the two modules

    [blackbody_nu] is astropy's Planck function, [eigh] numpy's symmetric
    eigensolver, [randn] numpy's global generator (its state is threaded
    explicitly), [read_map], [nside2npix] and the base class [Model] come
    from [template.py] and healpy.  [read_map] yields a one-dimensional
    map, one value per pixel. *)

Class Astro := { blackbody_nu : R -> R -> R }.

Class LinAlg := { eigh : matrix R -> vec R * matrix R }.

Class Rng := {
  rng_state : Type;
  randn : rng_state -> nat -> vec R * rng_state }.

Class MapIO := {
  read_map : pyval -> pyval -> result (vec R);
  nside2npix : pyval -> result nat;
  Model___init__ : pyobj -> pyval -> result pyobj }.

Inductive freq_input : Type :=
| FScalar (f : R)
| FArray (fs : vec R).

Definition all_positive (fs : vec R) : bool :=
  forallb (fun f => if Rlt_dec 0 f then true else false) fs.

(** Modelled from the spec: [check_freq_input] of [template.py], which is
    not part of the sources.  "validation normalizes all forms to a 1-D
    sequence of length >= 1 and fails with InvalidFrequencyInput on
    non-positive or empty input". *)
Definition check_freq_input (freqs : freq_input) : result (vec R) :=
  let fs := match freqs with FScalar f => [f] | FArray fs => fs end in
  match fs with
  | [] => Raise InvalidFrequencyInput
  | _ => if all_positive fs then Ok fs else Raise InvalidFrequencyInput
  end.

(** ** Broadcasting

    Arrays of rank 3 and 4 are nested lists.  [bzip] combines one axis of
    two operands the way numpy broadcasts it: an axis of length 1 is
    stretched along the other operand.  (numpy raises [ValueError] when
    the lengths differ and neither is 1; here the longer operand is cut,
    and no such pair of shapes occurs below.) *)

Fixpoint map2 {A B C : Type} (f : A -> B -> C) (a : list A) (b : list B)
  : list C :=
  match a, b with
  | x :: a', y :: b' => f x y :: map2 f a' b'
  | _, _ => []
  end.

Definition bzip {A B C : Type} (f : A -> B -> C) (a : list A) (b : list B)
  : list C :=
  match a, b with
  | [x], _ => map (f x) b
  | _, [y] => map (fun x => f x y) a
  | _, _ => map2 f a b
  end.

Abbreviation arr3 A := (list (list (list A))).
Abbreviation arr4 A := (list (list (list (list A)))).

Definition bzip2 {A B C} (f : A -> B -> C) := bzip (bzip f).
Definition bzip3 {A B C} (f : A -> B -> C) := bzip (bzip2 f).
Definition bzip4 {A B C} (f : A -> B -> C) := bzip (bzip3 f).

(** [a[None, ...]]: a new leading axis of length 1. *)
Definition newaxis {A : Type} (a : A) : list A := [a].

(** [a[:, None, None]] for a 1-D array. *)
Definition col3 {A : Type} (a : vec A) : arr3 A := map (fun x => [[x]]) a.

(** [a[None, :, None]] for a 1-D array. *)
Definition row3 {A : Type} (a : vec A) : arr3 A := [map (fun x => [x]) a].

(** Rank alignment: the operand of lower rank gets a leading axis of
    length 1. *)
Definition promote {A : Type} (a : A) : list A := [a].

Definition map4 {A B : Type} (f : A -> B) (a : arr4 A) : arr4 B :=
  map (map (map (map f))) a.

(** ** SED primitives ([dust.py], lines 240-283)

    Python evaluates the same expressions at every rank.  [get_emission]
    calls them with frequencies of rank 3 and maps of rank 4; the [_0d]
    versions are the expressions on scalars. *)

Section SED.
Context `{Astro}.

(** [blackbody_nu(freq_to, temp) / blackbody_nu(freq_from, temp)] *)
Definition blackbody_ratio_0d (freq_to freq_from temp : R) : R :=
  blackbody_nu freq_to temp / blackbody_nu freq_from temp.

Definition blackbody_ratio (freq_to freq_from : arr3 R) (temp : arr4 R)
  : arr4 R :=
  bzip4 Rdiv (bzip4 blackbody_nu (promote freq_to) temp)
             (bzip4 blackbody_nu (promote freq_from) temp).

(** [(freqs_to / freq_from) ** (index - 2)
     * blackbody_ratio(freqs_to, freq_from, temp)] *)
Definition mbb_sed_0d (freqs_to freq_from index temp : R) : R :=
  Rpower (freqs_to / freq_from) (index - 2)
  * blackbody_ratio_0d freqs_to freq_from temp.

Definition mbb_sed (freqs_to freq_from : arr3 R) (index temp : arr4 R)
  : arr4 R :=
  bzip4 Rmult
    (bzip4 Rpower (promote (bzip3 Rdiv freqs_to freq_from))
                  (map4 (fun b => b - 2) index))
    (blackbody_ratio freqs_to freq_from temp).

End SED.

(** ** ModifiedBlackBody ([dust.py], lines 8-114) *)

Module ModifiedBlackBody.
Section Class_.
Context `{Astro} `{MapIO}.

(** Private names are mangled with the class name. *)
Definition mbb_index_ := "_ModifiedBlackBody__mbb_index"%string.
Definition mbb_temperature_ := "_ModifiedBlackBody__mbb_temperature"%string.
Definition iqu_ref_freqs_ := "_ModifiedBlackBody__iqu_ref_freqs"%string.
Definition iqu_ref_ := "_ModifiedBlackBody__iqu_ref"%string.

(** [a[i] = v[None, :]] on a row of length [npix]: the value of shape
    [(1, m)] must broadcast to [(npix,)]. *)
Definition assign_row (npix : nat) (a : matrix R) (i : nat) (v : vec R)
  : result (matrix R) :=
  if (length v =? npix)%nat then Ok (<[i := v]> a)
  else match v with
       | [x] => Ok (<[i := repeat x npix]> a)
       | _ => Raise ValueError
       end.

(** [__init__].  The [freq_ref_I] and [freq_ref_P] properties and setters
    at the end of the body (lines 58-88) are function-local names: they
    are bound in the frame of [__init__] and dropped when it returns, so
    they contribute nothing to the instance. *)
Definition __init__ (self : pyobj)
    (map_I map_Q map_U unit_I unit_Q unit_U freq_ref_I freq_ref_P
     map_mbb_index map_mbb_temperature nside mpi_comm : pyval)
  : result pyobj :=
  let* self := Model___init__ self mpi_comm in
  let* index := read_map map_mbb_index nside in
  let self := setattr self mbb_index_ (PArr2 (newaxis index)) in
  let* temp := read_map map_mbb_temperature nside in
  let self := setattr self mbb_temperature_ (PArr2 (newaxis temp)) in
  let* freq_ref_I := py_float freq_ref_I in
  let* freq_ref_P := py_float freq_ref_P in
  let self := setattr self iqu_ref_freqs_
                (PArr1 ([freq_ref_I] ++ repeat freq_ref_P 2)) in
  let* npix := nside2npix nside in
  let iqu_ref := repeat (repeat 0 npix) 3 in
  let* m := read_map map_I nside in
  let* iqu_ref := assign_row npix iqu_ref 0 m in
  let* m := read_map map_Q nside in
  let* iqu_ref := assign_row npix iqu_ref 1 m in
  let* m := read_map map_U nside in
  let* iqu_ref := assign_row npix iqu_ref 2 m in
  Ok (setattr self iqu_ref_ (PArr2 iqu_ref)).

(** [get_emission] *)
Definition get_emission (self : pyobj) (freqs : freq_input)
  : result (arr4 R) :=
  let* freqs := check_freq_input freqs in
  let* iqu_ref_freqs := bind (getattr self iqu_ref_freqs_) as_arr1 in
  let* mbb_index := bind (getattr self mbb_index_) as_arr2 in
  let* mbb_temperature := bind (getattr self mbb_temperature_) as_arr2 in
  let scaling := mbb_sed (col3 freqs) (row3 iqu_ref_freqs)
                         (newaxis (newaxis mbb_index))
                         (newaxis (newaxis mbb_temperature)) in
  let* iqu_ref := bind (getattr self iqu_ref_) as_arr2 in
  Ok (bzip4 Rmult scaling (promote (newaxis iqu_ref))).

End Class_.
End ModifiedBlackBody.

(** ** Linear algebra on lists of rows *)

Definition col (j : nat) (m : matrix R) : vec R := map (fun row => nth j row 0) m.

Definition transpose (m : matrix R) : matrix R :=
  match m with
  | [] => []
  | row :: _ => map (fun j => col j m) (seq 0 (length row))
  end.

Definition dotp (u v : vec R) : R := fold_right Rplus 0 (map2 Rmult u v).

(** [np.dot(a, b)] for two matrices; the shapes must be aligned. *)
Definition dot (a b : matrix R) : result (matrix R) :=
  if forallb (fun row => (length row =? length b)%nat) a
  then Ok (map (fun row => map (dotp row) (transpose b)) a)
  else Raise ValueError.

(** [np.dot(a, v)] for a matrix and a 1-D array. *)
Definition dot_vec (a : matrix R) (v : vec R) : result (vec R) :=
  if forallb (fun row => (length row =? length v)%nat) a
  then Ok (map (fun row => dotp row v) a)
  else Raise ValueError.

(** [np.diag(w)] for a 1-D array. *)
Definition diag (w : vec R) : matrix R :=
  map (fun i => map (fun j => if (i =? j)%nat then nth i w 0 else 0)
                    (seq 0 (length w)))
      (seq 0 (length w)).

Definition madd (a b : matrix R) : matrix R := map2 (map2 Rplus) a b.

(** [np.min(w)]; an empty array has no minimum. *)
Definition np_min (w : vec R) : result R :=
  match w with
  | [] => Raise ValueError
  | x :: w' => Ok (fold_left Rmin w' x)
  end.

(** [np.delete(a, obj)] along the first axis: the positions listed in [obj]
    are dropped.  (numpy refuses a position outside of the array; the
    positions used below come from [np.where] on an array that is not
    longer.) *)
Definition np_delete {A : Type} (a : list A) (obj : list nat) : list A :=
  map snd (List.filter (fun ix => negb (existsb (Nat.eqb (fst ix)) obj))
                  (combine (seq 0 (length a)) a)).

(** ** Safe inversion ([dust.py], lines 215-238) *)

Section Invert.
Context `{LinAlg}.

(** [winv = 1. / w] and [np.dot(v, np.dot(np.diag(winv), np.transpose(v)))] *)
Definition reconstruct_inverse (w : vec R) (v : matrix R) : result (matrix R) :=
  let winv := map (fun x => 1 / x) w in
  let* inner := dot (diag winv) (transpose v) in
  dot v inner.

(** The [while not w_ok] loop; [fuel] bounds the number of passes. *)
Fixpoint invert_safe_loop (fuel : nat) (mb : matrix R)
  : result (vec R * matrix R) :=
  match fuel with
  | O => Stuck OutOfFuel
  | S fuel' =>
      let '(w, v) := eigh mb in
      let* wmin := np_min w in
      if Rlt_dec 0 wmin then Ok (w, v)
      else invert_safe_loop fuel'
             (madd mb (diag (map (Rmult (2 * Rmax 1e-14 (- wmin)))
                                 (repeat 1 (length mb)))))
  end.

Definition invert_safe (fuel : nat) (mat : matrix R) : result (matrix R) :=
  let mb := mat in
  let* wv := invert_safe_loop fuel mb in
  let '(w, v) := wv in
  reconstruct_inverse w v.

(** Shape law of an eigensolver: one row of eigenvector components per
    row of the input. *)
Definition eigh_rows : Prop := forall m, length (snd (eigh m)) = length m.

End Invert.

(** ** Decorrelation matrix ([dust.py], lines 166-212) *)

Definition finite_vec (v : vec xreal) : option (vec R) :=
  fold_right (fun x acc =>
                match x, acc with
                | Fin r, Some l => Some (r :: l)
                | _, _ => None
                end) (Some []) v.

Definition finite_matrix (m : matrix xreal) : result (matrix R) :=
  fold_right (fun row acc =>
                match finite_vec row with
                | Some r => let* l := acc in Ok (r :: l)
                | None => Stuck NonFinite
                end) (Ok []) m.

Definition Req_bool (x y : R) : bool := if Req_dec_T x y then true else false.

(** [np.where(mask)] for a 1-D mask: the positions that hold [True]. *)
Definition np_where (mask : list bool) : list nat :=
  map fst (List.filter snd (combine (seq 0 (length mask)) mask)).

Section Decorrelation.
Context `{LinAlg}.

Definition get_decorrelation_matrix (fuel : nat) (freq_constrained : R)
    (freqs_unconstrained : vec R) (correlation_length : R)
  : result (matrix R * matrix R) :=
  if Rle_dec 0 correlation_length then
    let* freq_constrained := check_freq_input (FScalar freq_constrained) in
    let freqs_all := freq_constrained ++ freqs_unconstrained in
    let indref := np_where (bzip Req_bool freqs_all freq_constrained) in
    let* corrmatrix :=
      finite_matrix (frequency_decorr_model freqs_all correlation_length) in
    let* rho_inv := invert_safe fuel corrmatrix in
    let rho_uu := map (fun row => np_delete row indref) (np_delete rho_inv indref) in
    let* rho_uu := invert_safe fuel rho_uu in
    (* rho_inv[:, indref], of shape (N, 1, k) *)
    let rho_inv_cu : arr3 R :=
      map (fun row => [map (fun i => nth i row 0) indref]) rho_inv in
    (* np.delete without an axis works on the flattened array *)
    let rho_inv_cu := transpose [np_delete (concat (concat rho_inv_cu)) indref] in
    let '(rho_uu_w, rho_uu_v) := eigh rho_uu in
    let evals := diag (map sqrt (map2 Rmax rho_uu_w (map (fun _ => 0) rho_uu_w))) in
    let* inner := dot evals (transpose rho_uu_v) in
    let* rho_covar := dot rho_uu_v inner in
    let* prod := dot rho_uu rho_inv_cu in
    let rho_mean := mmap Ropp prod in
    Ok (rho_covar, rho_mean)
  else Raise AssertionError.

End Decorrelation.

(** ** DecorrelatedModifiedBlackBody ([dust.py], lines 116-155) *)

Module DecorrelatedModifiedBlackBody.
Section Class_.
Context `{Astro} `{MapIO} `{LinAlg} `{Rng}.

(** [__init__].  The parent constructor is called with nine positional
    arguments, which its signature
    [(map_I, map_Q, map_U, unit_I, unit_Q, unit_U, freq_ref_I, freq_ref_P,
      map_mbb_index, map_mbb_temperature, nside, mpi_comm)]
    binds in that order; the last three keep their default [None]. *)
Definition __init__ (self : pyobj)
    (map_I map_Q map_U freq_ref_I freq_ref_P map_mbb_index
     map_mbb_temperature nside mpi_comm correlation_length : pyval)
  : result pyobj :=
  let* self := ModifiedBlackBody.__init__ self map_I map_Q map_U freq_ref_I
                 freq_ref_P map_mbb_index map_mbb_temperature nside mpi_comm
                 PNone PNone PNone in
  Ok (setattr self "correlation_length" correlation_length).

(** [decorr[:, j, None] = x] for [x] of shape [(m, 1)]. *)
Definition assign_col (decorr : matrix R) (j : nat) (x : matrix R)
  : result (matrix R) :=
  if (length x =? length decorr)%nat
  then Ok (map2 (fun row xi => <[j := nth 0 xi 0]> row) decorr x)
  else match x with
       | [xi] => Ok (map (fun row => <[j := nth 0 xi 0]> row) decorr)
       | _ => Raise ValueError
       end.

(** The part of [get_emission] before the first random draw. *)
Definition get_emission_matrices (fuel : nat) (self : pyobj) (freqs : freq_input)
  : result (vec R * (matrix R * matrix R) * (matrix R * matrix R)) :=
  let* freqs := check_freq_input freqs in
  let* freq_ref_I := bind (getattr self "freq_ref_I") as_num in
  let* correlation_length := bind (getattr self "correlation_length") as_num in
  let* rho_I := get_decorrelation_matrix fuel freq_ref_I freqs correlation_length in
  let* freq_ref_P := bind (getattr self "freq_ref_P") as_num in
  let* correlation_length := bind (getattr self "correlation_length") as_num in
  let* rho_P := get_decorrelation_matrix fuel freq_ref_P freqs correlation_length in
  Ok (freqs, rho_I, rho_P).

(** The part after [extra_I] and the second draw [z_P]. *)
Definition get_emission_combine (self : pyobj) (freqs : vec R)
    (rho_mean_I : matrix R) (rho_P : matrix R * matrix R)
    (extra_I z_P : vec R)
  : result (arr4 R) :=
  let '(rho_cov_P, rho_mean_P) := rho_P in
  let nfreqs := length freqs in
  let* extra_P := dot_vec rho_cov_P z_P in
  let decorr := repeat (repeat 0 3) nfreqs in
  let* decorr := assign_col decorr 0
                   (bzip2 Rplus rho_mean_I (map (fun x => [x]) extra_I)) in
  let* decorr := assign_col decorr 1
                   (bzip2 Rplus rho_mean_P (map (fun x => [x]) extra_P)) in
  let* decorr := assign_col decorr 2
                   (bzip2 Rplus rho_mean_P (map (fun x => [x]) extra_P)) in
  let* emission := ModifiedBlackBody.get_emission self (FArray freqs) in
  Ok (bzip4 Rmult (promote (map (map (fun x => [x])) decorr)) emission).

(** [get_emission]; the state of [np.random] goes in and comes out. *)
Definition get_emission (fuel : nat) (self : pyobj) (freqs : freq_input)
    (g : rng_state) : result (arr4 R) * rng_state :=
  match get_emission_matrices fuel self freqs with
  | Ok (freqs, (rho_cov_I, rho_mean_I), rho_P) =>
      let nfreqs := length freqs in
      let '(z_I, g) := randn g nfreqs in
      match dot_vec rho_cov_I z_I with
      | Ok extra_I =>
          let '(z_P, g) := randn g nfreqs in
          (get_emission_combine self freqs rho_mean_I rho_P extra_I z_P, g)
      | Raise e => (Raise e, g)
      | Stuck s => (Stuck s, g)
      end
  | Raise e => (Raise e, g)
  | Stuck s => (Stuck s, g)
  end.

(** [DecorrelatedModifiedBlackBody(...).get_emission(freqs)]: the instance
    is allocated empty, initialised by [__init__] and then used; an
    exception of the constructor ends the expression. *)
Definition construct_and_get_emission (fuel : nat)
    (map_I map_Q map_U freq_ref_I freq_ref_P map_mbb_index
     map_mbb_temperature nside mpi_comm correlation_length : pyval)
    (freqs : freq_input) (g : rng_state) : result (arr4 R) * rng_state :=
  match __init__ ∅ map_I map_Q map_U freq_ref_I freq_ref_P map_mbb_index
                 map_mbb_temperature nside mpi_comm correlation_length with
  | Ok self => get_emission fuel self freqs g
  | Raise e => (Raise e, g)
  | Stuck s => (Stuck s, g)
  end.

End Class_.
End DecorrelatedModifiedBlackBody.

(** Law of healpy: [hp.nside2npix(None)] raises (there is no arithmetic
    on [None]). *)
Definition nside2npix_refuses_None `{MapIO} : Prop :=
  is_ok (nside2npix PNone) = false.

(** ** Spinning dust ([spdust.py]) *)

(** The emissivity table read by [read_txt(..., unpack=True)]: one pair
    [(emissivity[0][k], emissivity[1][k])] per line of the text file. *)
Abbreviation curve := (list (R * R)).

(** The search of [np.interp] between two neighbouring sample points,
    written as a scan from the left; [(x0, y0)] is the last point passed,
    so [x0 <= x].  A scan and numpy's bisection agree on increasing sample
    points. *)
Fixpoint interp_scan (x x0 y0 : R) (rest : curve) : R :=
  match rest with
  | [] => y0
  | (x1, y1) :: rest' =>
      if Rlt_dec x x1 then
        if Req_dec_T x x0 then y0
        else (y1 - y0) / (x1 - x0) * (x - x0) + y0
      else interp_scan x x1 y1 rest'
  end.

(** [np.interp(x, xp, fp)] at one point: linear between the samples,
    the first and last amplitude outside of them, NaN at NaN; an empty
    table is refused. *)
Definition np_interp (x : xreal) (c : curve) : result xreal :=
  match c with
  | [] => Raise ValueError
  | (x0, y0) :: rest =>
      match x with
      | NaN => Ok NaN
      | NInf => Ok (Fin y0)
      | PInf => Ok (Fin (snd (List.last rest (x0, y0))))
      | Fin r => if Rlt_dec r x0 then Ok (Fin y0)
                 else Ok (Fin (interp_scan r x0 y0 rest))
      end
  end.

Fixpoint mapM {A B : Type} (f : A -> result B) (l : list A) : result (list B) :=
  match l with
  | [] => Ok []
  | x :: l' => let* y := f x in let* ys := mapM f l' in Ok (y :: ys)
  end.

(** Checked broadcasting of two 1-D operands. *)
Definition broadcast {A B C : Type} (f : A -> B -> C) (a : list A) (b : list B)
  : result (list C) :=
  if ((length a =? length b) || (length a =? 1) || (length b =? 1))%nat
  then Ok (bzip f a b) else Raise ValueError.

(** An element-wise operation on two arrays inside [@njit(parallel=True)]:
    the operation is compiled to a parallel loop, which is guarded by a
    check that the two sizes are equal; a failed check is an
    [AssertionError], and no operand is stretched. *)
Definition parfor_zip {A B C : Type} (f : A -> B -> C) (a : list A) (b : list B)
  : result (list C) :=
  if (length a =? length b)%nat then Ok (map2 f a b) else Raise AssertionError.

(** [out[...] = v] on a row of length [n]. *)
Definition assign_bcast {A : Type} (n : nat) (v : list A) : result (list A) :=
  if (length v =? n)%nat then Ok v
  else match v with
       | [x] => Ok (repeat x n)
       | _ => Raise ValueError
       end.

(** [compute_spdust_scaling_numba] (lines 98-106), for [freq_peak] the
    stored ratio map. *)
Definition compute_spdust_scaling_numba (freq freq_ref_I : R)
    (freq_peak : vec xreal) (emissivity : curve) : result (vec xreal) :=
  let scaled_freq := map (xdiv (Fin freq)) freq_peak in
  let scaled_ref_freq := map (xdiv (Fin freq_ref_I)) freq_peak in
  let* num := mapM (fun x => np_interp x emissivity) scaled_freq in
  let* den := mapM (fun x => np_interp x emissivity) scaled_ref_freq in
  let front := xsquare (xdiv (Fin freq_ref_I) (Fin freq)) in
  Ok (bzip xdiv (bzip xmul [front] num) den).

(** [compute_spdust_emission_numba] (lines 109-116) *)
Definition compute_spdust_emission_numba (freqs I_ref : vec R) (freq_ref_I : R)
    (freq_peak : vec xreal) (emissivity : curve) : result (arr3 xreal) :=
  mapM (fun freq =>
          let* scaling :=
            compute_spdust_scaling_numba freq freq_ref_I freq_peak emissivity in
          let* v := parfor_zip xmul (map Fin I_ref) scaling in
          let* row := assign_bcast (length I_ref) v in
          Ok [row])
       freqs.

(** [np.arctan2(y, x)] *)
Definition np_arctan2 (y x : R) : R :=
  if Rlt_dec 0 x then atan (y / x)
  else if Rlt_dec x 0 then
         if Rlt_dec y 0 then atan (y / x) - PI else atan (y / x) + PI
       else if Rlt_dec 0 y then PI / 2
            else if Rlt_dec y 0 then - (PI / 2) else 0.

(** [compute_spdust_emission_pol_numba] (lines 184-197) *)
Definition compute_spdust_emission_pol_numba (freqs I_ref : vec R)
    (freq_ref_I : R) (freq_peak : vec xreal) (emissivity : curve)
    (pol_angle : vec R) (pol_frac : R) : result (arr3 xreal) :=
  mapM (fun freq =>
          let out_I := I_ref in
          let* q := parfor_zip Rmult (map (fun i => i * pol_frac) I_ref)
                               (map cos pol_angle) in
          let* out_Q := assign_bcast (length I_ref) q in
          let* u := parfor_zip Rmult (map (fun i => i * pol_frac) I_ref)
                               (map sin pol_angle) in
          let* out_U := assign_bcast (length I_ref) u in
          let* scaling :=
            compute_spdust_scaling_numba freq freq_ref_I freq_peak emissivity in
          mapM (fun row =>
                  let* v := parfor_zip xmul (map Fin row) scaling in
                  assign_bcast (length I_ref) v)
               [out_I; out_Q; out_U])
       freqs.

(** The peak frequency given to the constructor, as a map.  (Given as a
    number it makes numba compile the scalar versions of the two functions
    above, whose arithmetic is the scalar one: a division by zero raises
    there.  That path is left out.) *)
Inductive peak_input : Type :=
| PeakMap (m : vec R).

Module SpDust.

Record t : Type := {
  I_ref : vec R;
  freq_ref_I : R;
  freq_peak : vec xreal;
  emissivity : curve }.

(** [__init__] (lines 51-65), on the maps and the table already read;
    [self.freq_peak /= freq_ref_peak]. *)
Definition __init__ (map_I : vec R) (freq_ref_I : R) (emissivity : curve)
    (freq_peak : peak_input) (freq_ref_peak : R) : t :=
  let freq_peak := match freq_peak with
                   | PeakMap m => m
                   end in
  {| I_ref := map_I;
     freq_ref_I := freq_ref_I;
     freq_peak := map (fun p => xdiv (Fin p) (Fin freq_ref_peak)) freq_peak;
     emissivity := emissivity |}.

Definition get_emission (self : t) (freqs : freq_input) : result (arr3 xreal) :=
  let* freqs := check_freq_input freqs in
  compute_spdust_emission_numba freqs (I_ref self) (freq_ref_I self)
                                (freq_peak self) (emissivity self).

End SpDust.

Module SpDustPol.

Record t : Type := {
  base : SpDust.t;
  pol_angle : vec R;
  pol_frac : R }.

(** [__init__] (lines 137-149);
    [np.arctan2(self.read_map(angle_U), self.read_map(angle_Q))]. *)
Definition __init__ (map_I : vec R) (freq_ref_I : R) (emissivity : curve)
    (freq_peak : peak_input) (freq_ref_peak : R) (pol_frac : R)
    (angle_Q angle_U : vec R) : result t :=
  let base := SpDust.__init__ map_I freq_ref_I emissivity freq_peak freq_ref_peak in
  let* pol_angle := broadcast np_arctan2 angle_U angle_Q in
  Ok {| base := base; pol_angle := pol_angle; pol_frac := pol_frac |}.

Definition get_emission (self : t) (freqs : freq_input) : result (arr3 xreal) :=
  let* freqs := check_freq_input freqs in
  compute_spdust_emission_pol_numba freqs
    (SpDust.I_ref (base self)) (SpDust.freq_ref_I (base self))
    (SpDust.freq_peak (base self)) (SpDust.emissivity (base self))
    (pol_angle self) (pol_frac self).

End SpDustPol.

(** ** Closed forms used by the statements below *)

Fixpoint map3 {A B C D : Type} (f : A -> B -> C -> D)
    (a : list A) (b : list B) (c : list C) : list D :=
  match a, b, c with
  | x :: a', y :: b', z :: c' => f x y z :: map3 f a' b' c'
  | _, _, _ => []
  end.


Section Expected.
Context `{Astro}.

(** The table [f, p, x |-> mbb_sed(f, refs[p], idx[x], tmp[x]) * iqu[p][x]]. *)
Definition mbb_expected (fs refs : vec R) (idx tmp : vec R) (iqu : matrix R)
  : arr3 R :=
  map (fun f =>
         map2 (fun r t => map3 (fun b T v => mbb_sed_0d f r b T * v) idx tmp t)
              refs iqu)
      fs.


End Expected.

(** The value of [np.interp] on a table that is not empty. *)
Definition interp_val (x : xreal) (c : curve) : xreal :=
  match np_interp x c with
  | Ok v => v
  | _ => NaN
  end.

(** The spinning-dust scaling of one pixel with peak ratio [p]:
    [(freq_ref_I / freq) ** 2 * interp(freq / p) / interp(freq_ref_I / p)]. *)
Definition spdust_scaling_px (freq freq_ref_I : R) (p : xreal) (c : curve)
  : xreal :=
  xdiv (xmul (xsquare (xdiv (Fin freq_ref_I) (Fin freq)))
             (interp_val (xdiv (Fin freq) p) c))
       (interp_val (xdiv (Fin freq_ref_I) p) c).

(** ** Concrete collaborators and data for the examples *)

Module Demo.

(** Planck's law in units where [h = c = k = 1]. *)
Definition planck : Astro :=
  {| blackbody_nu := fun f T => 2 * f ^ 3 / (exp (f / T) - 1) |}.

(** An eigensolver for diagonal matrices with an increasing diagonal:
    the eigenvalues are the diagonal, the eigenvectors the unit vectors. *)
Definition diag_eigh : LinAlg :=
  {| eigh := fun m =>
       (map (fun i => nth i (nth i m []) 0) (seq 0 (length m)),
        diag (repeat 1 (length m))) |}.

(** A generator whose state is a counter and whose draws are that counter. *)
Definition counter_rng : Rng :=
  {| rng_state := nat;
     randn := fun g n => (repeat (INR g) n, S g) |}.

(** A sky at resolution [nside = 1]: every map has the twelve pixels of
    that resolution, whatever its path; as with healpy, a resolution of
    [None] is refused.  [Model.__init__] sets nothing. *)
Definition healpix_io : MapIO :=
  {| read_map := fun path nside =>
       match path, nside with
       | PPath _, PNum r =>
           if Req_dec_T r 1 then Ok (repeat 1 12) else Raise ValueError
       | _, _ => Raise TypeError
       end;
     nside2npix := fun nside =>
       match nside with
       | PNum r => if Req_dec_T r 1 then Ok 12%nat else Raise ValueError
       | _ => Raise TypeError
       end;
     Model___init__ := fun self _ => Ok self |}.

(** A one-pixel dust model with reference frequency 353 GHz for I and P,
    spectral index 1.5 and temperature 20 K. *)
Definition dust : pyobj :=
  <[ModifiedBlackBody.iqu_ref_ := PArr2 [[1]; [2]; [3]]]>
    (<[ModifiedBlackBody.iqu_ref_freqs_ := PArr1 [353; 353; 353]]>
       (<[ModifiedBlackBody.mbb_temperature_ := PArr2 [[20]]]>
          (<[ModifiedBlackBody.mbb_index_ := PArr2 [[1.5]]]> ∅))).

(** What [ModifiedBlackBody(map_I, map_Q, map_U, freq_ref_I=353,
    freq_ref_P=353, map_mbb_index=index, map_mbb_temperature=temperature,
    nside=1)] builds on that sky. *)
Definition dust12 : pyobj :=
  <[ModifiedBlackBody.iqu_ref_ :=
      PArr2 [repeat 1 12; repeat 1 12; repeat 1 12]]>
    (<[ModifiedBlackBody.iqu_ref_freqs_ := PArr1 [353; 353; 353]]>
       (<[ModifiedBlackBody.mbb_temperature_ := PArr2 [repeat 1 12]]>
          (<[ModifiedBlackBody.mbb_index_ := PArr2 [repeat 1 12]]> ∅))).

End Demo.

(** ** Further collaborators for the examples *)

Module Demo2.

(** Maps of two values for a resolution of three pixels. *)
Definition short_map_io : MapIO :=
  {| read_map := fun _ _ => Ok [1; 2];
     nside2npix := fun _ => Ok 3%nat;
     Model___init__ := fun self _ => Ok self |}.

End Demo2.

(** ** Shapes *)

(** [m] has [r] rows of [c] entries each. *)
Definition is_shape (r c : nat) (m : matrix R) : Prop :=
  length m = r /\ Forall (fun row => length row = c) m.

(** Shape law of an eigensolver on a square matrix of size [n]: [n]
    eigenvalues and an [n] by [n] matrix of eigenvectors. *)
Definition eigh_square `{LinAlg} : Prop :=
  forall (n : nat) (m : matrix R),
    is_shape n n m -> length (fst (eigh m)) = n /\ is_shape n n (snd (eigh m)).

(** Number of [True] entries of a mask. *)
Definition count_true (mask : list bool) : nat :=
  length (List.filter (fun b => b) mask).

(** ** Finite sums

    [rsum f n] is [f 0 + f 1 + ... + f (n - 1)], summed as [np.dot] sums
    the products of a row and a column. *)
Fixpoint rsum (f : nat -> R) (n : nat) : R :=
  match n with
  | O => 0
  | S n' => f O + rsum (fun k => f (S k)) n'
  end.

(** * Theorems *)

(** ** Frequency correlation model *)

Lemma Forall_pos_nth (l : list R) i :
  Forall (fun f => 0 < f) l -> (i < length l)%nat -> 0 < nth i l 0.
Proof.
  intros H. revert i. induction H as [|x l Hx _ IH]; intros [|i] Hi; simpl in *;
    try lia; [exact Hx | apply IH; lia].
Qed.

Lemma frequency_decorr_model_finite freqs L i j :
  Forall (fun f => 0 < f) freqs -> L <> 0 ->
  (i < length freqs)%nat -> (j < length freqs)%nat ->
  entry NaN (frequency_decorr_model freqs L) i j =
  Fin (exp (- 0.5 * (ln (nth i freqs 0 / nth j freqs 0) / L) ^ 2)).
Proof.
  intros Hpos HL Hi Hj.
  rewrite frequency_decorr_model_entry by assumption.
  assert (Hfi : 0 < nth i freqs 0) by (apply Forall_pos_nth; assumption).
  assert (Hfj : 0 < nth j freqs 0) by (apply Forall_pos_nth; assumption).
  rewrite xdiv_fin by lra.
  rewrite xlog_fin by (apply Rdiv_lt_0_compat; assumption).
  rewrite xdiv_fin by assumption.
  unfold xsquare. simpl. do 2 f_equal. ring.
Qed.

(** C6: for positive frequencies and a correlation length [L > 0] the matrix
    of [frequency_decorr_model] is square, its entry [(i, j)] is
    [exp (-0.5 * (ln (freqs[i] / freqs[j]) / L) ^ 2)], its diagonal is
    exactly 1 and it is symmetric. *)
Theorem C6_frequency_decorr_model_entries :
  forall (freqs : vec R) (L : R),
    Forall (fun f => 0 < f) freqs -> 0 < L ->
    let M := frequency_decorr_model freqs L in
    length M = length freqs /\
    forall i j, (i < length freqs)%nat -> (j < length freqs)%nat ->
      length (nth i M []) = length freqs /\
      entry NaN M i j =
        Fin (exp (- 0.5 * (ln (nth i freqs 0 / nth j freqs 0) / L) ^ 2)) /\
      entry NaN M i i = Fin 1 /\
      entry NaN M i j = entry NaN M j i.
Proof.
  intros freqs L Hpos HL M. subst M.
  destruct (frequency_decorr_model_shape freqs L) as [Hrows Hcols].
  split; [exact Hrows|].
  intros i j Hi Hj.
  assert (HL0 : L <> 0) by lra.
  assert (Hfi : 0 < nth i freqs 0) by (apply Forall_pos_nth; assumption).
  assert (Hfj : 0 < nth j freqs 0) by (apply Forall_pos_nth; assumption).
  repeat split.
  - now apply Hcols.
  - now apply frequency_decorr_model_finite.
  - rewrite frequency_decorr_model_finite by assumption.
    f_equal. unfold Rdiv at 2. rewrite Rinv_r by lra. rewrite ln_1.
    replace (- 0.5 * (0 / L) ^ 2) with 0 by (field; assumption).
    apply exp_0.
  - rewrite !frequency_decorr_model_finite by assumption.
    do 2 f_equal.
    replace (nth j freqs 0 / nth i freqs 0)
      with (/ (nth i freqs 0 / nth j freqs 0)) by (field; lra).
    rewrite ln_Rinv by (apply Rdiv_lt_0_compat; assumption).
    field. assumption.
Qed.

Lemma C6_witness :
  let freqs := [100; 353] in
  let M := frequency_decorr_model freqs 2 in
  length M = length freqs /\
  forall i j, (i < length freqs)%nat -> (j < length freqs)%nat ->
    length (nth i M []) = length freqs /\
    entry NaN M i j =
      Fin (exp (- 0.5 * (ln (nth i freqs 0 / nth j freqs 0) / 2) ^ 2)) /\
    entry NaN M i i = Fin 1 /\
    entry NaN M i j = entry NaN M j i.
Proof.
  apply (C6_frequency_decorr_model_entries [100; 353] 2).
  - repeat constructor; lra.
  - lra.
Defined.

(** C5: with [correlation_length = 0] the function divides by zero without a
    guard; already for the single frequency 100 GHz the diagonal entry is
    [0 / 0], a NaN, and not 1. *)
Theorem C5_zero_length_diagonal_is_nan :
  frequency_decorr_model [100] 0 = [[NaN]] /\
  entry NaN (frequency_decorr_model [100] 0) 0 0 <> Fin 1.
Proof.
  assert (H : frequency_decorr_model [100] 0 = [[NaN]]).
  { unfold frequency_decorr_model, outer, mmap. cbn [map].
    rewrite (xdiv_fin 100 100) by lra.
    rewrite xlog_fin by lra.
    replace (100 / 100) with 1 by field. rewrite ln_1.
    rewrite xdiv_zero_zero. reflexivity. }
  split; [exact H|]. rewrite H. discriminate.
Qed.

(** ** Broadcasting lemmas *)

Lemma bzip_l1 {A B C} (f : A -> B -> C) x b : bzip f [x] b = map (f x) b.
Proof. reflexivity. Qed.

Lemma bzip_r1 {A B C} (f : A -> B -> C) a y :
  bzip f a [y] = map (fun x => f x y) a.
Proof. destruct a as [|x [|x' a']]; reflexivity. Qed.

Lemma bzip_3 {A B C} (f : A -> B -> C) a1 a2 a3 b1 b2 b3 :
  bzip f [a1; a2; a3] [b1; b2; b3] = [f a1 b1; f a2 b2; f a3 b3].
Proof. reflexivity. Qed.

Lemma map2_single_l {A B C} (f : A -> B -> C) x b :
  length b = 1%nat -> map2 f [x] b = map (f x) b.
Proof. destruct b as [|y [|y' b']]; simpl; intros E; try discriminate; reflexivity. Qed.

Lemma map2_single_r {A B C} (f : A -> B -> C) a y :
  length a = 1%nat -> map2 f a [y] = map (fun x => f x y) a.
Proof. destruct a as [|x [|x' a']]; simpl; intros E; try discriminate; reflexivity. Qed.

Lemma bzip_same {A B C} (f : A -> B -> C) a b :
  length a = length b -> bzip f a b = map2 f a b.
Proof.
  intros E. destruct a as [|x [|x' a']].
  - destruct b; [reflexivity | discriminate].
  - rewrite bzip_l1. symmetry. apply map2_single_l. now rewrite <- E.
  - destruct b as [|y [|y' b']]; try (simpl in E; discriminate). reflexivity.
Qed.

Lemma map2_length {A B C} (f : A -> B -> C) a b :
  length a = length b -> length (map2 f a b) = length a.
Proof.
  revert b. induction a as [|x a IH]; intros [|y b] E; simpl in *; try lia.
  rewrite IH; lia.
Qed.

Lemma map2_nth {A B C} (f : A -> B -> C) a b da db dc i :
  length a = length b -> (i < length a)%nat ->
  nth i (map2 f a b) dc = f (nth i a da) (nth i b db).
Proof.
  revert b i. induction a as [|x a IH]; intros [|y b] [|i] E Hi; simpl in *;
    try lia; [reflexivity | apply IH; lia].
Qed.

Lemma map2_map_l {A A' B C} (f : A' -> B -> C) (g : A -> A') a b :
  map2 f (map g a) b = map2 (fun x y => f (g x) y) a b.
Proof. revert b. induction a as [|x a IH]; intros [|y b]; simpl; congruence. Qed.

Lemma map2_map_r {A B B' C} (f : A -> B' -> C) (g : B -> B') a b :
  map2 f a (map g b) = map2 (fun x y => f x (g y)) a b.
Proof. revert b. induction a as [|x a IH]; intros [|y b]; simpl; congruence. Qed.

Lemma map2_diag {A C} (f : A -> A -> C) a :
  map2 f a a = map (fun x => f x x) a.
Proof. induction a as [|x a IH]; simpl; congruence. Qed.

Lemma map2_map2_l {A B C D E} (f : C -> D -> E) (g : A -> B -> C) a b d :
  length a = length b -> length a = length d ->
  map2 f (map2 g a b) d = map2 (fun xy z => f (g (fst xy) (snd xy)) z) (combine a b) d.
Proof.
  revert b d. induction a as [|x a IH]; intros [|y b] [|z d] E1 E2; simpl in *;
    try lia; try reflexivity.
  f_equal. apply IH; lia.
Qed.

Lemma map3_length {A B C D} (f : A -> B -> C -> D) a b c :
  length b = length a -> length c = length a ->
  length (map3 f a b c) = length a.
Proof.
  revert b c. induction a as [|x a IH]; intros [|y b] [|z c] E1 E2; simpl in *;
    try lia. rewrite IH; lia.
Qed.

Lemma map3_nth {A B C D} (f : A -> B -> C -> D) a b c da db dc dd i :
  length b = length a -> length c = length a -> (i < length a)%nat ->
  nth i (map3 f a b c) dd = f (nth i a da) (nth i b db) (nth i c dc).
Proof.
  revert b c i.
  induction a as [|x a IH]; intros [|y b] [|z c] [|i] E1 E2 Hi; simpl in *;
    try lia; [reflexivity | apply IH; lia].
Qed.

Ltac bind_inv H x E :=
  match type of H with
  | bind ?m _ = Ok _ =>
      destruct m as [x| |] eqn:E; cbn [bind] in H; [|discriminate H..]
  end.

Section MBB_lemmas.
Context `{Astro} `{MapIO}.
Import ModifiedBlackBody.

(** One row of the output: the scaling of one frequency [f] against one
    reference frequency [r], times the template row [t]. *)
Lemma mbb_row f r idx tmp t :
  length tmp = length idx -> length t = length idx ->
  bzip Rmult
    (bzip Rmult (bzip Rpower [f / r] (map (fun b => b - 2) idx))
                (bzip Rdiv (map (blackbody_nu f) tmp) (map (blackbody_nu r) tmp)))
    t
  = map3 (fun b T v => mbb_sed_0d f r b T * v) idx tmp t.
Proof.
  intros E1 E2. rewrite !bzip_l1.
  rewrite (bzip_same Rdiv) by now rewrite !length_map.
  assert (Ed : length (map2 Rdiv (map (blackbody_nu f) tmp)
                                 (map (blackbody_nu r) tmp)) = length idx).
  { rewrite map2_length; rewrite !length_map; congruence. }
  rewrite (bzip_same Rmult (map _ _)) by (rewrite !length_map; congruence).
  rewrite (bzip_same Rmult).
  2: { rewrite map2_length; rewrite !length_map; congruence. }
  clear Ed.
  revert tmp t E1 E2.
  induction idx as [|b idx IH]; intros [|T tmp] [|v t] E1 E2; simpl in *;
    try discriminate; [reflexivity|].
  f_equal. apply IH; congruence.
Qed.

Lemma get_emission_closed_form self freqs fs rI rQ rU idx tmp tI tQ tU :
  self !! iqu_ref_freqs_ = Some (PArr1 [rI; rQ; rU]) ->
  self !! mbb_index_ = Some (PArr2 [idx]) ->
  self !! mbb_temperature_ = Some (PArr2 [tmp]) ->
  self !! iqu_ref_ = Some (PArr2 [tI; tQ; tU]) ->
  length tmp = length idx -> length tI = length idx ->
  length tQ = length idx -> length tU = length idx ->
  check_freq_input freqs = Ok fs ->
  get_emission self freqs =
  Ok [mbb_expected fs [rI; rQ; rU] idx tmp [tI; tQ; tU]].
Proof.
  intros H1 H2 H3 H4 L1 L2 L3 L4 Hc.
  unfold get_emission. rewrite Hc. cbn [bind].
  unfold getattr. rewrite H1, H2, H3, H4. cbn [bind as_arr1 as_arr2].
  unfold mbb_sed, blackbody_ratio, promote, newaxis, row3, col3, map4.
  unfold bzip4, bzip3, bzip2.
  repeat (rewrite bzip_l1; cbn [map]).
  repeat (rewrite bzip_r1; cbn [map]).
  rewrite !map_map.
  rewrite (bzip_same (bzip (bzip Rmult))) by now rewrite !length_map.
  rewrite map2_map_l, map2_map_r, map2_diag, map_map.
  unfold mbb_expected. do 2 f_equal. apply map_ext. intros f.
  repeat (rewrite bzip_l1; cbn [map]).
  repeat (rewrite bzip_r1; cbn [map]).
  repeat rewrite bzip_3.
  rewrite !mbb_row by assumption. reflexivity.
Qed.

Lemma assign_row_ok npix a i v a' :
  assign_row npix a i v = Ok a' ->
  exists row, a' = <[i := row]> a /\ length row = npix.
Proof.
  unfold assign_row. destruct (length v =? npix)%nat eqn:E.
  - intros [= <-]. exists v. split; [reflexivity|]. now apply Nat.eqb_eq.
  - destruct v as [|x [|y v]]; intros [= <-].
    exists (repeat x npix). split; [reflexivity|]. apply repeat_length.
Qed.

(** What a successful [__init__] leaves in the instance: the four mangled
    private attributes on top of whatever [Model.__init__] has set, and
    nothing else. *)
Lemma init_attributes self0 map_I map_Q map_U unit_I unit_Q unit_U
    freq_ref_I freq_ref_P map_mbb_index map_mbb_temperature nside mpi_comm self :
  __init__ self0 map_I map_Q map_U unit_I unit_Q unit_U freq_ref_I freq_ref_P
           map_mbb_index map_mbb_temperature nside mpi_comm = Ok self ->
  exists self1 idx tmp rI rP tI tQ tU npix,
    Model___init__ self0 mpi_comm = Ok self1 /\
    read_map map_mbb_index nside = Ok idx /\
    read_map map_mbb_temperature nside = Ok tmp /\
    freq_ref_I = PNum rI /\ freq_ref_P = PNum rP /\
    nside2npix nside = Ok npix /\
    length tI = npix /\ length tQ = npix /\ length tU = npix /\
    self = <[iqu_ref_ := PArr2 [tI; tQ; tU]]>
             (<[iqu_ref_freqs_ := PArr1 [rI; rP; rP]]>
                (<[mbb_temperature_ := PArr2 [tmp]]>
                   (<[mbb_index_ := PArr2 [idx]]> self1))).
Proof.
  unfold __init__. intros Hinit.
  bind_inv Hinit self1 Em. bind_inv Hinit idx Ei. bind_inv Hinit tmp Et.
  bind_inv Hinit rI EfI. bind_inv Hinit rP EfP. bind_inv Hinit npix En.
  bind_inv Hinit mI EmI. bind_inv Hinit q0 Eq0.
  bind_inv Hinit mQ EmQ. bind_inv Hinit q1 Eq1.
  bind_inv Hinit mU EmU. bind_inv Hinit q2 Eq2.
  destruct freq_ref_I; try discriminate. destruct freq_ref_P; try discriminate.
  cbn in EfI, EfP. injection EfI as <-. injection EfP as <-.
  apply assign_row_ok in Eq0 as (tI & -> & L0).
  apply assign_row_ok in Eq1 as (tQ & -> & L1).
  apply assign_row_ok in Eq2 as (tU & -> & L2).
  injection Hinit as <-.
  exists self1, idx, tmp, r, r0, tI, tQ, tU, npix.
  repeat split; try assumption; reflexivity.
Qed.

End MBB_lemmas.

(** ** ModifiedBlackBody.get_emission *)

Section MBB_emission.
Context `{Astro}.

Lemma mbb_expected_entry fs refs idx tmp iqu i p x :
  length iqu = length refs ->
  length tmp = length idx ->
  (forall q, (q < length refs)%nat -> length (nth q iqu []) = length idx) ->
  (i < length fs)%nat -> (p < length refs)%nat -> (x < length idx)%nat ->
  let A := mbb_expected fs refs idx tmp iqu in
  length A = length fs /\
  length (nth i A []) = length refs /\
  length (nth p (nth i A []) []) = length idx /\
  nth x (nth p (nth i A []) []) 0 =
    mbb_sed_0d (nth i fs 0) (nth p refs 0) (nth x idx 0) (nth x tmp 0)
    * nth x (nth p iqu []) 0.
Proof.
  intros Eq Et Hrows Hi Hp Hx A. subst A. unfold mbb_expected.
  split; [now rewrite length_map|].
  rewrite (nth_indep _ []
             ((fun f => map2 (fun r t =>
                 map3 (fun b T v => mbb_sed_0d f r b T * v) idx tmp t) refs iqu) 0))
    by now rewrite length_map.
  rewrite (map_nth (fun f => map2 (fun r t =>
             map3 (fun b T v => mbb_sed_0d f r b T * v) idx tmp t) refs iqu)).
  split; [now rewrite map2_length|].
  rewrite (map2_nth _ refs iqu 0 []) by (try symmetry; assumption).
  split.
  - rewrite map3_length; [reflexivity|assumption|]. now apply Hrows.
  - rewrite (map3_nth _ idx tmp _ 0 0 0); [reflexivity|assumption| |assumption].
    now apply Hrows.
Qed.

End MBB_emission.

(** C1: on an instance as [__init__] leaves it (index and temperature maps
    of shape [(1, npix)], reference frequencies [(I, P, P)], templates of
    shape [(3, npix)]) and for an accepted frequency input,
    [ModifiedBlackBody.get_emission] returns an array with FOUR axes, of
    shape [(1, nfreq, 3, npix)]: one block [A] whose entry at
    [(f, p, x)] is [(f / refFreq[p]) ^ (index[x] - 2)
    * blackbodyRatio(f, refFreq[p], temp[x]) * template[p][x]].  The
    entries are the ones the docstring promises, the shape is not
    [(nfreq, 3, npix)]. *)
Theorem C1_get_emission_shape_and_entries :
  forall `{Astro} (self : pyobj) (freqs : freq_input) (fs : vec R)
         (rI rP : R) (idx tmp tI tQ tU : vec R),
    self !! ModifiedBlackBody.iqu_ref_freqs_ = Some (PArr1 [rI; rP; rP]) ->
    self !! ModifiedBlackBody.mbb_index_ = Some (PArr2 [idx]) ->
    self !! ModifiedBlackBody.mbb_temperature_ = Some (PArr2 [tmp]) ->
    self !! ModifiedBlackBody.iqu_ref_ = Some (PArr2 [tI; tQ; tU]) ->
    length tmp = length idx -> length tI = length idx ->
    length tQ = length idx -> length tU = length idx ->
    check_freq_input freqs = Ok fs ->
    exists A : arr3 R,
      ModifiedBlackBody.get_emission self freqs = Ok [A] /\
      length A = length fs /\
      forall i p x,
        (i < length fs)%nat -> (p < 3)%nat -> (x < length idx)%nat ->
        length (nth i A []) = 3%nat /\
        length (nth p (nth i A []) []) = length idx /\
        nth x (nth p (nth i A []) []) 0 =
          Rpower (nth i fs 0 / nth p [rI; rP; rP] 0) (nth x idx 0 - 2)
          * blackbody_ratio_0d (nth i fs 0) (nth p [rI; rP; rP] 0) (nth x tmp 0)
          * nth x (nth p [tI; tQ; tU] []) 0.
Proof.
  intros HA self freqs fs rI rP idx tmp tI tQ tU H1 H2 H3 H4 L1 L2 L3 L4 Hc.
  exists (mbb_expected fs [rI; rP; rP] idx tmp [tI; tQ; tU]).
  split.
  { now apply get_emission_closed_form. }
  assert (Hrows : forall q, (q < length [rI; rP; rP])%nat ->
                            length (nth q [tI; tQ; tU] []) = length idx).
  { intros [|[|[|q]]] Hq; simpl in *; try assumption; lia. }
  split.
  { unfold mbb_expected. now rewrite length_map. }
  intros i p x Hi Hp Hx.
  destruct (mbb_expected_entry fs [rI; rP; rP] idx tmp [tI; tQ; tU] i p x
              eq_refl L1 Hrows Hi Hp Hx) as (_ & E1 & E2 & E3).
  repeat split; assumption.
Qed.

(** The same on an instance that [__init__] has just built, when the index
    and temperature maps have one value per pixel: the reference
    frequencies are [(I, P, P)] and the result is one block in a list of
    length 1. *)
Lemma init_then_get_emission `{Astro} `{MapIO}
    self0 map_I map_Q map_U unit_I unit_Q unit_U freq_ref_I freq_ref_P
    map_mbb_index map_mbb_temperature nside mpi_comm self freqs fs idx tmp npix :
  ModifiedBlackBody.__init__ self0 map_I map_Q map_U unit_I unit_Q unit_U
    freq_ref_I freq_ref_P map_mbb_index map_mbb_temperature nside mpi_comm
    = Ok self ->
  read_map map_mbb_index nside = Ok idx ->
  read_map map_mbb_temperature nside = Ok tmp ->
  nside2npix nside = Ok npix ->
  length idx = npix -> length tmp = npix ->
  check_freq_input freqs = Ok fs ->
  exists rI rP tI tQ tU,
    freq_ref_I = PNum rI /\ freq_ref_P = PNum rP /\
    length tI = npix /\ length tQ = npix /\ length tU = npix /\
    ModifiedBlackBody.get_emission self freqs =
    Ok [mbb_expected fs [rI; rP; rP] idx tmp [tI; tQ; tU]].
Proof.
  intros Hinit Hidx Htmp Hn Li Lt Hc.
  apply init_attributes in Hinit
    as (self1 & idx' & tmp' & rI & rP & tI & tQ & tU & npix' & _ & Hidx' & Htmp'
        & HfI & HfP & Hn' & LI & LQ & LU & ->).
  rewrite Hidx in Hidx'. injection Hidx' as <-.
  rewrite Htmp in Htmp'. injection Htmp' as <-.
  rewrite Hn in Hn'. injection Hn' as <-.
  exists rI, rP, tI, tQ, tU. repeat (split; [assumption|]).
  apply get_emission_closed_form; try congruence.
  - rewrite lookup_insert_ne by (cbv; discriminate). apply lookup_insert_eq.
  - repeat (rewrite lookup_insert_ne by (cbv; discriminate)). apply lookup_insert_eq.
  - repeat (rewrite lookup_insert_ne by (cbv; discriminate)). apply lookup_insert_eq.
  - apply lookup_insert_eq.
Qed.

Lemma check_freq_input_array_ok (fs : vec R) :
  fs <> [] -> Forall (fun f => 0 < f) fs -> check_freq_input (FArray fs) = Ok fs.
Proof.
  intros Hne Hpos. unfold check_freq_input.
  assert (Hall : all_positive fs = true).
  { unfold all_positive. induction Hpos as [|f l Hf _ IH]; [reflexivity|].
    simpl. destruct (Rlt_dec 0 f); [|contradiction].
    destruct l; [reflexivity|]. apply IH. discriminate. }
  rewrite Hall. destruct fs; [contradiction|reflexivity].
Qed.

Lemma check_freq_input_scalar_ok (f : R) :
  0 < f -> check_freq_input (FScalar f) = Ok [f].
Proof.
  intros Hf. unfold check_freq_input, all_positive. simpl.
  destruct (Rlt_dec 0 f); [reflexivity|contradiction].
Qed.

Lemma C1_witness :
  exists A : arr3 R,
    @ModifiedBlackBody.get_emission Demo.planck Demo.dust (FArray [100]) = Ok [A] /\
    length A = 1%nat /\
    forall i p x,
      (i < 1)%nat -> (p < 3)%nat -> (x < 1)%nat ->
      length (nth i A []) = 3%nat /\
      length (nth p (nth i A []) []) = 1%nat /\
      nth x (nth p (nth i A []) []) 0 =
        Rpower (nth i [100] 0 / nth p [353; 353; 353] 0) (nth x [1.5] 0 - 2)
        * @blackbody_ratio_0d Demo.planck (nth i [100] 0)
            (nth p [353; 353; 353] 0) (nth x [20] 0)
        * nth x (nth p [[1]; [2]; [3]] []) 0.
Proof.
  apply (@C1_get_emission_shape_and_entries Demo.planck Demo.dust
           (FArray [100]) [100] 353 353 [1.5] [20] [1] [2] [3]);
    try reflexivity.
  apply check_freq_input_array_ok; [discriminate|].
  repeat constructor; lra.
Defined.

(** ** Spinning dust *)

Lemma mapM_ok_map {A B} (f : A -> result B) (g : A -> B) l :
  (forall x, In x l -> f x = Ok (g x)) -> mapM f l = Ok (map g l).
Proof.
  induction l as [|x l IH]; intros Hf; [reflexivity|].
  simpl. rewrite (Hf x) by now left. cbn [bind].
  rewrite IH by (intros y Hy; apply Hf; now right). reflexivity.
Qed.

Lemma np_interp_val x c : c <> [] -> np_interp x c = Ok (interp_val x c).
Proof.
  intros Hc. unfold interp_val. destruct c as [|[x0 y0] rest]; [contradiction|].
  simpl. destruct x; try reflexivity. destruct (Rlt_dec r x0); reflexivity.
Qed.

Lemma map2_map_map {A B C D} (f : B -> C -> D) (g : A -> B) (h : A -> C) l :
  map2 f (map g l) (map h l) = map (fun x => f (g x) (h x)) l.
Proof. now rewrite map2_map_l, map2_map_r, map2_diag. Qed.

Lemma spdust_scaling_closed freq freq_ref_I freq_peak c :
  c <> [] ->
  compute_spdust_scaling_numba freq freq_ref_I freq_peak c =
  Ok (map (fun p => spdust_scaling_px freq freq_ref_I p c) freq_peak).
Proof.
  intros Hc. unfold compute_spdust_scaling_numba.
  rewrite (mapM_ok_map _ (fun x => interp_val x c))
    by (intros; now apply np_interp_val).
  cbn [bind].
  rewrite (mapM_ok_map _ (fun x => interp_val x c))
    by (intros; now apply np_interp_val).
  cbn [bind]. rewrite bzip_l1, !map_map.
  rewrite bzip_same by now rewrite !length_map.
  now rewrite map2_map_map.
Qed.

Lemma xdiv_self (x : R) : x <> 0 -> xdiv (Fin x) (Fin x) = Fin 1.
Proof. intros Hx. rewrite xdiv_fin by assumption. f_equal. now field. Qed.

(** At the reference frequency the scaling of a pixel is 1 as soon as the
    interpolated emissivity there is a non-zero number. *)
Lemma spdust_scaling_px_anchor freq_ref_I p c e :
  freq_ref_I <> 0 -> interp_val (xdiv (Fin freq_ref_I) p) c = Fin e -> e <> 0 ->
  spdust_scaling_px freq_ref_I freq_ref_I p c = Fin 1.
Proof.
  intros Hf He Hne. unfold spdust_scaling_px. rewrite He.
  rewrite xdiv_self by assumption. unfold xsquare. cbn [xmul].
  rewrite xdiv_fin by assumption. f_equal. now field.
Qed.

Lemma mbb_sed_0d_anchor `{Astro} (f idx T : R) :
  0 < f -> blackbody_nu f T <> 0 -> mbb_sed_0d f f idx T = 1.
Proof.
  intros Hf HB. unfold mbb_sed_0d, blackbody_ratio_0d.
  replace (f / f) with 1 by (field; lra).
  unfold Rpower. rewrite ln_1, Rmult_0_r, exp_0. field. assumption.
Qed.

Ltac decide_R :=
  repeat match goal with
         | |- context [Rlt_dec ?a ?b] => destruct (Rlt_dec a b); try lra
         | |- context [Req_dec_T ?a ?b] => destruct (Req_dec_T a b); try lra
         | |- context [Rle_dec ?a ?b] => destruct (Rle_dec a b); try lra
         end.

Lemma interp_val_fin (r : R) (c : curve) :
  c <> [] -> exists e, interp_val (Fin r) c = Fin e.
Proof.
  intros Hc. destruct c as [|[x0 y0] rest]; [contradiction|].
  unfold interp_val. simpl. destruct (Rlt_dec r x0); eauto.
Qed.

Lemma planck_pos (f T : R) :
  0 < f -> 0 < T -> 0 < @blackbody_nu Demo.planck f T.
Proof.
  intros Hf HT. simpl.
  assert (Hx : 0 < f / T) by (apply Rdiv_lt_0_compat; assumption).
  assert (Hx0 : f / T <> 0) by lra.
  pose proof (exp_ineq1 (f / T) Hx0) as He.
  apply Rdiv_lt_0_compat; [|lra].
  assert (0 < f ^ 3) by (apply pow_lt; assumption). lra.
Qed.

(** C7 (as amended): identity at the anchor frequency.  For a positive
    frequency [f] and temperature [T] at which the Planck radiance is not
    zero, [mbb_sed(f, f, idx, T)] is exactly 1, on scalars and on arrays.
    For a positive reference frequency, positive peak ratios and a table
    that is not empty, the spinning-dust scaling at [freq = freq_ref_I] is
    exactly 1 in every pixel where the interpolated emissivity at
    [freq_ref_I / freq_peak] is not zero. *)
Theorem C7_anchor_identity :
  forall `{Astro} (f idx T freq_ref_I : R) (peaks : vec R) (c : curve),
    0 < f -> 0 < T -> blackbody_nu f T <> 0 ->
    0 < freq_ref_I -> Forall (fun p => 0 < p) peaks -> c <> [] ->
    (forall p, In p peaks ->
               interp_val (xdiv (Fin freq_ref_I) (Fin p)) c <> Fin 0) ->
    mbb_sed_0d f f idx T = 1 /\
    mbb_sed [[[f]]] [[[f]]] [[[[idx]]]] [[[[T]]]] = [[[[1]]]] /\
    compute_spdust_scaling_numba freq_ref_I freq_ref_I (map Fin peaks) c =
      Ok (map (fun _ => Fin 1) peaks).
Proof.
  intros HA f idx T fr peaks c Hf HT HB Hfr Hpeaks Hc Hnz.
  pose proof (mbb_sed_0d_anchor f idx T Hf HB) as H0.
  split; [exact H0|]. split.
  { unfold mbb_sed_0d, blackbody_ratio_0d in H0.
    cbv [mbb_sed blackbody_ratio bzip4 bzip3 bzip2 bzip promote map4 map].
    now rewrite H0. }
  rewrite spdust_scaling_closed by assumption. f_equal.
  rewrite map_map. apply map_ext_in. intros p Hp.
  assert (Hp0 : 0 < p).
  { clear - Hpeaks Hp. induction Hpeaks as [|q l Hq _ IH]; [contradiction|].
    destruct Hp as [<-|Hp]; [assumption|now apply IH]. }
  destruct (interp_val_fin (fr / p) c Hc) as [e He].
  apply (spdust_scaling_px_anchor fr (Fin p) c e).
  - lra.
  - rewrite xdiv_fin by lra. exact He.
  - intros ->. apply (Hnz p Hp). rewrite xdiv_fin by lra. exact He.
Qed.

Lemma C7_witness :
  @mbb_sed_0d Demo.planck 100 100 1.5 20 = 1 /\
  @mbb_sed Demo.planck [[[100]]] [[[100]]] [[[[1.5]]]] [[[[20]]]] = [[[[1]]]] /\
  compute_spdust_scaling_numba 30 30 (map Fin [30]) [(0.5, 1); (1, 2); (2, 1)] =
    Ok (map (fun _ => Fin 1) [30]).
Proof.
  apply (@C7_anchor_identity Demo.planck 100 1.5 20 30 [30]
           [(0.5, 1); (1, 2); (2, 1)]); try lra.
  - pose proof (planck_pos 100 20 ltac:(lra) ltac:(lra)). lra.
  - repeat constructor; lra.
  - discriminate.
  - intros p [<-|[]]. rewrite xdiv_fin by lra.
    unfold interp_val, np_interp, interp_scan. decide_R.
    intros [= E]. lra.
Defined.

(** C7 as stated fails: a reference frequency of 30 GHz with peak ratio 1
    lies beyond a table whose last amplitude is 0; [np.interp] clamps to
    that amplitude and the scaling at [freq = freq_ref_I] is [0 / 0]. *)
Lemma C7_counterexample :
  compute_spdust_scaling_numba 30 30 [Fin 1] [(1, 2); (2, 0)] = Ok [NaN] /\
  compute_spdust_scaling_numba 30 30 [Fin 1] [(1, 2); (2, 0)] <> Ok [Fin 1].
Proof.
  assert (E : compute_spdust_scaling_numba 30 30 [Fin 1] [(1, 2); (2, 0)]
              = Ok [NaN]).
  { rewrite spdust_scaling_closed by discriminate. cbn [map]. do 2 f_equal.
    unfold spdust_scaling_px. rewrite !xdiv_fin by lra.
    unfold interp_val, np_interp, interp_scan. decide_R.
    unfold xsquare. cbn [xmul]. rewrite Rmult_0_r. apply xdiv_zero_zero. }
  split; [exact E|]. rewrite E. discriminate.
Qed.

Lemma broadcast_same {A B C} (f : A -> B -> C) a b :
  length a = length b -> broadcast f a b = Ok (map2 f a b).
Proof.
  intros E. unfold broadcast.
  apply Nat.eqb_eq in E as E'. rewrite E'. cbn [orb].
  now rewrite bzip_same.
Qed.

Lemma parfor_zip_same {A B C} (f : A -> B -> C) a b :
  length a = length b -> parfor_zip f a b = Ok (map2 f a b).
Proof. intros E. unfold parfor_zip. apply Nat.eqb_eq in E. now rewrite E. Qed.

Lemma assign_bcast_same {A} n (v : list A) :
  length v = n -> assign_bcast n v = Ok v.
Proof. intros E. unfold assign_bcast. apply Nat.eqb_eq in E. now rewrite E. Qed.

Lemma nth_map_in {A B} (f : A -> B) l da db i :
  (i < length l)%nat -> nth i (map f l) db = f (nth i l da).
Proof.
  intros Hi. rewrite (nth_indep _ db (f da)) by now rewrite length_map.
  apply map_nth.
Qed.

Lemma spdust_row_closed (row : vec R) freq freq_ref_I freq_peak c :
  length freq_peak = length row ->
  let scaling := map (fun p => spdust_scaling_px freq freq_ref_I p c) freq_peak in
  (let* v := parfor_zip xmul (map Fin row) scaling in
   assign_bcast (length row) v)
  = Ok (map2 (fun i p => xmul (Fin i) (spdust_scaling_px freq freq_ref_I p c))
             row freq_peak).
Proof.
  intros E scaling. subst scaling.
  rewrite parfor_zip_same by (rewrite !length_map; congruence).
  cbn [bind]. rewrite map2_map_l, map2_map_r.
  apply assign_bcast_same. rewrite map2_length; congruence.
Qed.





(** ** DecorrelatedModifiedBlackBody *)

Section Decorrelated_lemmas.
Context `{Astro} `{MapIO} `{LinAlg} `{Rng}.
Import DecorrelatedModifiedBlackBody.

(** An object that [ModifiedBlackBody.__init__] has initialised carries
    the four private attributes of that class on top of what
    [Model.__init__] returned: the properties defined at the end of the
    constructor are not among them. *)
Lemma initialised_no_attribute self0 map_I map_Q map_U unit_I unit_Q unit_U
    freq_ref_I freq_ref_P map_mbb_index map_mbb_temperature nside mpi_comm
    self name :
  (forall s1, Model___init__ self0 mpi_comm = Ok s1 -> s1 !! name = None) ->
  name = "freq_ref_I"%string \/ name = "freq_ref_P"%string ->
  ModifiedBlackBody.__init__ self0 map_I map_Q map_U unit_I unit_Q unit_U
    freq_ref_I freq_ref_P map_mbb_index map_mbb_temperature nside mpi_comm
    = Ok self ->
  self !! name = None.
Proof.
  intros Hbase Hname Hinit. apply init_attributes in Hinit.
  destruct Hinit as (self1 & idx & tmp & rI & rP & tI & tQ & tU & npix & Hm & _
                     & _ & _ & _ & _ & _ & _ & _ & ->).
  destruct Hname as [-> | ->];
    (repeat (rewrite lookup_insert_ne by (cbv; discriminate)));
    now apply Hbase.
Qed.

(** The constructor of the subclass leaves the parent's [nside] at its
    default [None]; the parent asks healpy for the pixel count of that
    resolution, so the construction cannot complete. *)
Lemma decorrelated_init_refused self0 map_I map_Q map_U freq_ref_I freq_ref_P
    map_mbb_index map_mbb_temperature nside mpi_comm correlation_length self :
  nside2npix_refuses_None ->
  __init__ self0 map_I map_Q map_U freq_ref_I freq_ref_P map_mbb_index
           map_mbb_temperature nside mpi_comm correlation_length <> Ok self.
Proof.
  intros Hlaw Hinit. unfold __init__ in Hinit. bind_inv Hinit s E.
  apply init_attributes in E.
  destruct E as (_ & _ & _ & _ & _ & _ & _ & _ & npix & _ & _ & _ & _ & _ & Hn
                 & _).
  unfold nside2npix_refuses_None in Hlaw. rewrite Hn in Hlaw. discriminate Hlaw.
Qed.

Lemma get_emission_without_freq_ref_I fuel self freqs g :
  self !! "freq_ref_I"%string = None ->
  get_emission fuel self freqs g =
  match check_freq_input freqs with
  | Ok _ => (Raise (AttributeError "freq_ref_I"), g)
  | Raise e => (Raise e, g)
  | Stuck s => (Stuck s, g)
  end.
Proof.
  intros Hno. unfold get_emission, get_emission_matrices.
  destruct (check_freq_input freqs) as [fs|e|s]; cbn [bind]; try reflexivity.
  unfold getattr. rewrite Hno. reflexivity.
Qed.

End Decorrelated_lemmas.

(** A call of [get_emission] that ends before the first draw hands the
    generator back untouched and returns no emission. *)
Lemma get_emission_no_draw `{Astro} `{MapIO} `{LinAlg} `{Rng}
    fuel self freqs (g : rng_state) :
  self !! "freq_ref_I"%string = None ->
  snd (DecorrelatedModifiedBlackBody.get_emission fuel self freqs g) = g /\
  forall A, fst (DecorrelatedModifiedBlackBody.get_emission fuel self freqs g)
            <> Ok A.
Proof.
  intros Hno. rewrite get_emission_without_freq_ref_I by assumption.
  destruct (check_freq_input freqs); split; try reflexivity; discriminate.
Qed.


(** C10: no call reaches [np.random.randn].  The expression
    [DecorrelatedModifiedBlackBody(...).get_emission(freqs)] ends in the
    constructor, whatever the arguments and the frequencies: it returns
    no emission and leaves the generator in the state it received.  On an
    object that [ModifiedBlackBody.__init__] has initialised,
    [get_emission] ends before the first draw as well. *)
Theorem C10_no_draw_before_failure :
  forall `{Astro} `{MapIO} `{LinAlg} `{Rng}
         (map_I map_Q map_U freq_ref_I freq_ref_P map_mbb_index
          map_mbb_temperature nside mpi_comm correlation_length : pyval)
         (fuel : nat) (freqs : freq_input) (g : rng_state),
    nside2npix_refuses_None ->
    let use :=
      DecorrelatedModifiedBlackBody.construct_and_get_emission fuel
        map_I map_Q map_U freq_ref_I freq_ref_P map_mbb_index
        map_mbb_temperature nside mpi_comm correlation_length freqs g in
    snd use = g /\
    (forall A, fst use <> Ok A) /\
    (forall (self0 : pyobj)
            (pmap_I pmap_Q pmap_U punit_I punit_Q punit_U pfreq_ref_I
             pfreq_ref_P pmap_mbb_index pmap_mbb_temperature pnside
             pmpi_comm : pyval) (self : pyobj),
       (forall s1, Model___init__ self0 pmpi_comm = Ok s1 ->
                   s1 !! "freq_ref_I"%string = None) ->
       ModifiedBlackBody.__init__ self0 pmap_I pmap_Q pmap_U punit_I punit_Q
         punit_U pfreq_ref_I pfreq_ref_P pmap_mbb_index pmap_mbb_temperature
         pnside pmpi_comm = Ok self ->
       snd (DecorrelatedModifiedBlackBody.get_emission fuel self freqs g) = g /\
       forall A,
         fst (DecorrelatedModifiedBlackBody.get_emission fuel self freqs g)
         <> Ok A).
Proof.
  intros HA HM HL HR map_I map_Q map_U fI fP mi mt nside comm cl fuel freqs g
         Hlaw use.
  assert (Huse : snd use = g /\ forall A, fst use <> Ok A).
  { subst use. unfold DecorrelatedModifiedBlackBody.construct_and_get_emission.
    destruct (DecorrelatedModifiedBlackBody.__init__ ∅ map_I map_Q map_U fI fP
                mi mt nside comm cl) as [self|e|s] eqn:E.
    - now apply decorrelated_init_refused in E.
    - split; [reflexivity|discriminate].
    - split; [reflexivity|discriminate]. }
  destruct Huse as [H1 H2]. split; [exact H1|]. split; [exact H2|].
  intros self0 pI pQ pU uI uQ uU pfI pfP pmi pmt pnside pcomm self Hbase Hinit.
  apply get_emission_no_draw.
  eapply initialised_no_attribute; [exact Hbase|left; reflexivity|exact Hinit].
Qed.

(** On the path that the missing attribute cuts off, a call draws twice:
    one vector of length [nfreq] for I, then one for Q and U. *)
Lemma get_emission_draws `{Astro} `{MapIO} `{LinAlg} `{Rng}
    fuel self freqs (g : rng_state) fs cov_I mean_I rho_P extra_I :
  DecorrelatedModifiedBlackBody.get_emission_matrices fuel self freqs
    = Ok (fs, (cov_I, mean_I), rho_P) ->
  dot_vec cov_I (fst (randn g (length fs))) = Ok extra_I ->
  let g1 := snd (randn g (length fs)) in
  DecorrelatedModifiedBlackBody.get_emission fuel self freqs g =
  (DecorrelatedModifiedBlackBody.get_emission_combine self fs mean_I rho_P
     extra_I (fst (randn g1 (length fs))),
   snd (randn g1 (length fs))).
Proof.
  intros Hm Hd g1. unfold DecorrelatedModifiedBlackBody.get_emission.
  rewrite Hm. subst g1. destruct (randn g (length fs)) as [zI g1].
  cbn [fst snd] in *. rewrite Hd. destruct (randn g1 (length fs)). reflexivity.
Qed.

Lemma demo_dust12_init :
  @ModifiedBlackBody.__init__ Demo.healpix_io ∅
     (PPath "I") (PPath "Q") (PPath "U") PNone PNone PNone (PNum 353) (PNum 353)
     (PPath "index") (PPath "temperature") (PNum 1) PNone
  = Ok Demo.dust12.
Proof.
  unfold ModifiedBlackBody.__init__.
  cbn [read_map nside2npix Model___init__ Demo.healpix_io bind py_float].
  destruct (Req_dec_T 1 1) as [_|Hne]; [reflexivity|now contradiction Hne].
Qed.



Lemma C10_witness :
  let use :=
    @DecorrelatedModifiedBlackBody.construct_and_get_emission Demo.planck
      Demo.healpix_io Demo.diag_eigh Demo.counter_rng 2
      (PPath "I") (PPath "Q") (PPath "U") (PNum 353) (PNum 353) (PPath "index")
      (PPath "temperature") (PNum 1) PNone (PNum 0.1) (FArray [100]) 7%nat in
  snd use = 7%nat /\
  (forall A, fst use <> Ok A) /\
  snd (@DecorrelatedModifiedBlackBody.get_emission Demo.planck Demo.diag_eigh
         Demo.counter_rng 2 Demo.dust12 (FArray [100]) 7%nat) = 7%nat /\
  (forall A,
     fst (@DecorrelatedModifiedBlackBody.get_emission Demo.planck
            Demo.diag_eigh Demo.counter_rng 2 Demo.dust12
            (FArray [100]) 7%nat) <> Ok A).
Proof.
  destruct (@C10_no_draw_before_failure Demo.planck Demo.healpix_io
              Demo.diag_eigh Demo.counter_rng
              (PPath "I") (PPath "Q") (PPath "U") (PNum 353) (PNum 353)
              (PPath "index") (PPath "temperature") (PNum 1) PNone (PNum 0.1)
              2%nat (FArray [100]) 7%nat eq_refl) as (H1 & H2 & H3).
  split; [exact H1|]. split; [exact H2|].
  apply (H3 ∅ (PPath "I") (PPath "Q") (PPath "U") PNone PNone PNone
            (PNum 353) (PNum 353) (PPath "index") (PPath "temperature")
            (PNum 1) PNone Demo.dust12).
  - intros s1 [= <-]. reflexivity.
  - exact demo_dust12_init.
Defined.

(** ** Safe inversion *)

Lemma forallb_length_eq (a : matrix R) (n : nat) :
  Forall (fun row => length row = n) a ->
  forallb (fun row => (length row =? n)%nat) a = true.
Proof.
  induction 1 as [|row a Hr _ IH]; [reflexivity|].
  simpl. rewrite IH. apply Nat.eqb_eq in Hr. now rewrite Hr.
Qed.

Lemma dot_ok (a b : matrix R) :
  Forall (fun row => length row = length b) a ->
  dot a b = Ok (map (fun row => map (dotp row) (transpose b)) a).
Proof. intros Ha. unfold dot. now rewrite forallb_length_eq. Qed.

Lemma diag_shape (w : vec R) :
  length (diag w) = length w /\
  Forall (fun row => length row = length w) (diag w).
Proof.
  unfold diag. split; [now rewrite length_map, length_seq|].
  apply List.Forall_forall. intros row Hin. apply in_map_iff in Hin as (i & <- & _).
  now rewrite length_map, length_seq.
Qed.

Lemma transpose_length (v : matrix R) (n : nat) :
  v <> [] -> Forall (fun row => length row = n) v -> length (transpose v) = n.
Proof.
  intros Hne Hv. destruct v as [|row v]; [contradiction|].
  unfold transpose. rewrite length_map, length_seq. now inversion Hv.
Qed.

(** On a decomposition of the right shape the reconstruction succeeds. *)
Lemma reconstruct_inverse_ok (w : vec R) (v : matrix R) :
  w <> [] -> length v = length w ->
  Forall (fun row => length row = length w) v ->
  exists inv, reconstruct_inverse w v = Ok inv /\ length inv = length w.
Proof.
  intros Hw Hlen Hrows. unfold reconstruct_inverse.
  set (winv := map (fun x => 1 / x) w).
  assert (Hwinv : length winv = length w) by (unfold winv; now rewrite length_map).
  assert (Hv : v <> []).
  { intros ->. destruct w; [contradiction|discriminate]. }
  pose proof (transpose_length v (length w) Hv Hrows) as Ht.
  destruct (diag_shape winv) as [Hd1 Hd2].
  rewrite dot_ok.
  2: { rewrite Ht, <- Hwinv. exact Hd2. }
  cbn [bind].
  rewrite dot_ok by (rewrite length_map, Hd1, Hwinv; exact Hrows).
  eexists. split; [reflexivity|]. now rewrite length_map.
Qed.

Section Invert_lemmas.
Context `{LinAlg}.

Lemma invert_safe_loop_positive fuel m w v wmin :
  eigh m = (w, v) -> np_min w = Ok wmin -> 0 < wmin ->
  invert_safe_loop (S fuel) m = Ok (w, v).
Proof.
  intros He Hm Hpos. cbn [invert_safe_loop]. rewrite He, Hm. cbn [bind].
  destruct (Rlt_dec 0 wmin); [reflexivity|contradiction].
Qed.



End Invert_lemmas.



(** ** Decorrelation matrix *)

Lemma Req_bool_refl (x : R) : Req_bool x x = true.
Proof. unfold Req_bool. destruct (Req_dec_T x x); [reflexivity|contradiction]. Qed.

Lemma Req_bool_neq (x y : R) : x <> y -> Req_bool x y = false.
Proof. intros H. unfold Req_bool. destruct (Req_dec_T x y); [contradiction|reflexivity]. Qed.

Lemma madd_length (a b : matrix R) :
  length a = length b -> length (madd a b) = length a.
Proof. intros E. unfold madd. now apply map2_length. Qed.

Section Decorrelation_lemmas.
Context `{LinAlg}.

Lemma invert_safe_loop_rows fuel m w v :
  eigh_rows -> invert_safe_loop fuel m = Ok (w, v) -> length v = length m.
Proof.
  intros Hrows. revert m. induction fuel as [|fuel IH]; intros m Hloop.
  - discriminate.
  - cbn [invert_safe_loop] in Hloop.
    pose proof (Hrows m) as Hm.
    destruct (eigh m) as [w0 v0]. cbn [snd] in Hm.
    destruct (np_min w0) as [wmin| |]; cbn [bind] in Hloop; try discriminate.
    destruct (Rlt_dec 0 wmin).
    + injection Hloop as <- <-. exact Hm.
    + apply IH in Hloop. rewrite Hloop. apply madd_length.
      destruct (diag_shape (map (Rmult (2 * Rmax 1e-14 (- wmin)))
                                (repeat 1 (length m)))) as [Hd _].
      rewrite Hd. now rewrite length_map, repeat_length.
Qed.

Lemma dot_rows (a b c : matrix R) : dot a b = Ok c -> length c = length a.
Proof.
  unfold dot. destruct (forallb _ a); [|discriminate].
  intros [= <-]. now rewrite length_map.
Qed.

Lemma invert_safe_rows fuel m inv :
  eigh_rows -> invert_safe fuel m = Ok inv -> length inv = length m.
Proof.
  intros Hrows. unfold invert_safe. intros Hinv.
  bind_inv Hinv wv Hloop. destruct wv as [w v].
  apply invert_safe_loop_rows in Hloop; [|assumption].
  unfold reconstruct_inverse in Hinv. bind_inv Hinv inner Hd.
  apply dot_rows in Hinv. congruence.
Qed.

Lemma invert_safe_empty fuel :
  fst (eigh []) = [] -> forall inv, invert_safe fuel [] <> Ok inv.
Proof.
  intros Hnil inv. unfold invert_safe.
  destruct fuel as [|fuel]; [discriminate|].
  cbn [invert_safe_loop]. destruct (eigh []) as [w v]. cbn [fst] in Hnil. subst w.
  discriminate.
Qed.

End Decorrelation_lemmas.

(** C2: the constrained position is looked up by value,
    [np.where(freqs_all == freq_constrained)].  When the only unconstrained
    frequency equals the constrained one, both positions are selected,
    both rows and columns of the inverse are deleted, and the second
    [invert_safe] is handed an empty matrix: the call returns no pair
    [(C, m)] at all, for any eigensolver that keeps the number of rows and
    finds no eigenvalue in an empty matrix. *)
Theorem C2_constrained_frequency_among_unconstrained :
  forall `{LinAlg} (fuel : nat) (f L : R),
    eigh_rows -> fst (eigh []) = [] ->
    forall r, get_decorrelation_matrix fuel f [f] L <> Ok r.
Proof.
  intros HL fuel f L Hrows Hnil r. unfold get_decorrelation_matrix.
  destruct (Rle_dec 0 L); [|discriminate].
  destruct (check_freq_input (FScalar f)) as [fc| |] eqn:Hc; cbn [bind];
    try discriminate.
  assert (Hfc : fc = [f]).
  { unfold check_freq_input in Hc. destruct (all_positive [f]); [|discriminate].
    now injection Hc as <-. }
  subst fc. cbn [app]. rewrite bzip_r1. cbn [map]. rewrite Req_bool_refl.
  destruct (finite_matrix _) as [corr| |] eqn:Hcorr; cbn [bind]; try discriminate.
  assert (Hlen : length corr = 2%nat).
  { clear - Hcorr. unfold frequency_decorr_model, outer, mmap in Hcorr.
    cbn [map finite_matrix fold_right] in Hcorr.
    repeat match type of Hcorr with
           | context [finite_vec ?v] => destruct (finite_vec v); [|discriminate]
           end.
    cbn [bind] in Hcorr. now injection Hcorr as <-. }
  destruct (invert_safe fuel corr) as [rho_inv| |] eqn:Hinv; cbn [bind];
    try discriminate.
  apply invert_safe_rows in Hinv; [|assumption]. rewrite Hlen in Hinv.
  destruct rho_inv as [|p0 [|p1 [|p2 rho]]]; try discriminate.
  change (np_where [true; true]) with [0%nat; 1%nat].
  change (np_delete [p0; p1] [0%nat; 1%nat]) with (@nil (list R)).
  cbn [map].
  destruct (invert_safe fuel []) as [rho_uu| |] eqn:Huu; cbn [bind];
    try discriminate.
  now apply invert_safe_empty in Huu.
Qed.

Lemma C2_witness :
  is_ok (@get_decorrelation_matrix Demo.diag_eigh 5 353 [353] 0.1) = false.
Proof.
  pose proof (@C2_constrained_frequency_among_unconstrained Demo.diag_eigh
                5 353 0.1) as Hthm.
  destruct (@get_decorrelation_matrix Demo.diag_eigh 5 353 [353] 0.1) as [r| |];
    try reflexivity.
  exfalso. apply (Hthm) with (r := r); [|reflexivity|reflexivity].
  intros m. cbn [eigh Demo.diag_eigh snd].
  destruct (diag_shape (repeat 1 (length m))) as [Hd _].
  now rewrite Hd, repeat_length.
Defined.

(** The correlation matrix of positive frequencies is a matrix of real
    numbers. *)
Lemma Forall_pos_In (l : list R) x : Forall (fun f => 0 < f) l -> In x l -> 0 < x.
Proof.
  induction 1 as [|y l Hy _ IH]; [contradiction|].
  intros [<-|Hin]; [assumption|now apply IH].
Qed.

Lemma frequency_decorr_model_real freqs L :
  Forall (fun f => 0 < f) freqs -> L <> 0 ->
  frequency_decorr_model freqs L =
  mmap Fin (outer (fun a b => exp (- 0.5 * (ln (a / b) / L) ^ 2)) freqs freqs).
Proof.
  intros Hpos HL. unfold frequency_decorr_model, mmap, outer.
  rewrite !map_map. apply map_ext_in. intros a Ha.
  rewrite !map_map. apply map_ext_in. intros b Hb.
  pose proof (Forall_pos_In _ _ Hpos Ha). pose proof (Forall_pos_In _ _ Hpos Hb).
  rewrite xdiv_fin by lra.
  rewrite xlog_fin by (apply Rdiv_lt_0_compat; assumption).
  rewrite xdiv_fin by assumption.
  unfold xsquare. cbn [xmul xexp]. do 2 f_equal. ring.
Qed.

Lemma finite_vec_Fin (v : vec R) : finite_vec (map Fin v) = Some v.
Proof. induction v as [|x v IH]; [reflexivity|]. simpl. now rewrite IH. Qed.

Lemma finite_matrix_Fin (m : matrix R) : finite_matrix (mmap Fin m) = Ok m.
Proof.
  induction m as [|row m IH]; [reflexivity|].
  unfold mmap in *. simpl. rewrite finite_vec_Fin, IH. reflexivity.
Qed.

Lemma np_where_shift (mask : list bool) (k : nat) :
  Forall (fun b => b = false) mask ->
  map fst (List.filter snd (combine (seq k (length mask)) mask)) = [].
Proof.
  intros Hm. revert k. induction Hm as [|b mask -> _ IH]; intros k; [reflexivity|].
  simpl. apply IH.
Qed.

Lemma np_where_head (mask : list bool) :
  Forall (fun b => b = false) mask -> np_where (true :: mask) = [0%nat].
Proof.
  intros Hm. unfold np_where. simpl. f_equal. now apply np_where_shift.
Qed.

Lemma np_delete_shift {A} (a : list A) (k : nat) :
  map snd (List.filter (fun ix => negb (existsb (Nat.eqb (fst ix)) [0%nat]))
                       (combine (seq (S k) (length a)) a)) = a.
Proof.
  revert k. induction a as [|x a IH]; intros k; [reflexivity|].
  simpl. f_equal. apply IH.
Qed.

Lemma np_delete_first {A} (a : list A) : np_delete a [0%nat] = tl a.
Proof.
  unfold np_delete. destruct a as [|x a]; [reflexivity|].
  simpl. apply np_delete_shift.
Qed.

Lemma transpose_row (x : vec R) : transpose [x] = map (fun e => [e]) x.
Proof.
  unfold transpose, col. cbn [map].
  apply nth_ext with (d := []) (d' := []).
  - now rewrite !length_map, length_seq.
  - intros i Hi. rewrite length_map, length_seq in Hi.
    rewrite (nth_map_in _ (seq 0 (length x)) 0%nat [] i)
      by now rewrite length_seq.
    rewrite seq_nth by assumption.
    now rewrite (nth_map_in _ x 0 [] i Hi).
Qed.


Section Decorrelation_regular.
Context `{LinAlg}.


(** In the regular case both results have one row per unconstrained
    frequency. *)
Lemma get_decorrelation_matrix_rows fuel f_c F L C m :
  eigh_rows ->
  0 < f_c -> Forall (fun f => 0 < f) F -> ~ In f_c F -> 0 < L ->
  get_decorrelation_matrix fuel f_c F L = Ok (C, m) ->
  length C = length F /\ length m = length F.
Proof.
  intros Hrows Hfc HF Hnotin HL. unfold get_decorrelation_matrix.
  destruct (Rle_dec 0 L); [|lra].
  rewrite check_freq_input_scalar_ok by assumption. cbn [bind app].
  rewrite bzip_r1. cbn [map]. rewrite Req_bool_refl.
  rewrite np_where_head.
  2: { apply List.Forall_forall. intros b Hb. apply in_map_iff in Hb as (x & <- & Hx).
       apply Req_bool_neq. intros ->. contradiction. }
  rewrite frequency_decorr_model_real by (try constructor; try assumption; lra).
  rewrite finite_matrix_Fin. cbn [bind]. intros Hres.
  bind_inv Hres P HP. bind_inv Hres Sm HS.
  pose proof (Hrows Sm) as HV. destruct (eigh Sm) as [lam V]. cbn [snd] in HV.
  bind_inv Hres inner Hinner. bind_inv Hres C' HC. bind_inv Hres pr Hprod.
  injection Hres as <- <-.
  apply invert_safe_rows in HP; [|assumption].
  apply invert_safe_rows in HS; [|assumption].
  apply dot_rows in HC. apply dot_rows in Hprod.
  rewrite outer_length in HP. cbn [length] in HP.
  rewrite length_map, np_delete_first in HS.
  assert (HtlP : length (tl P) = length F).
  { destruct P; simpl in *; lia. }
  unfold mmap. rewrite length_map. split; congruence.
Qed.

End Decorrelation_regular.

(** * Further properties *)

(** ** SED primitives *)

(** X1: the black-body ratio composes along a chain of frequencies and is
    its own reciprocal when the two frequencies are exchanged. *)
Theorem X1_blackbody_ratio_chain :
  forall `{Astro} (a b c T : R),
    blackbody_nu b T <> 0 -> blackbody_nu c T <> 0 -> blackbody_nu a T <> 0 ->
    blackbody_ratio_0d a b T * blackbody_ratio_0d b c T = blackbody_ratio_0d a c T /\
    blackbody_ratio_0d a b T * blackbody_ratio_0d b a T = 1.
Proof.
  intros HA a b c T Hb Hc Ha. unfold blackbody_ratio_0d. split; field; auto.
Qed.

Lemma X1_witness :
  @blackbody_ratio_0d Demo.planck 100 353 20 * @blackbody_ratio_0d Demo.planck 353 30 20
    = @blackbody_ratio_0d Demo.planck 100 30 20 /\
  @blackbody_ratio_0d Demo.planck 100 353 20 * @blackbody_ratio_0d Demo.planck 353 100 20
    = 1.
Proof.
  apply (@X1_blackbody_ratio_chain Demo.planck 100 353 30 20).
  - pose proof (planck_pos 353 20 ltac:(lra) ltac:(lra)). lra.
  - pose proof (planck_pos 30 20 ltac:(lra) ltac:(lra)). lra.
  - pose proof (planck_pos 100 20 ltac:(lra) ltac:(lra)). lra.
Defined.

(** X2: the modified-blackbody scaling composes: scaling from [c] to [b]
    and then from [b] to [a] is the scaling from [c] to [a]; in particular
    scaling there and back gives 1. *)
Theorem X2_mbb_sed_chain :
  forall `{Astro} (a b c index T : R),
    0 < a -> 0 < b -> 0 < c ->
    blackbody_nu a T <> 0 -> blackbody_nu b T <> 0 -> blackbody_nu c T <> 0 ->
    mbb_sed_0d a b index T * mbb_sed_0d b c index T = mbb_sed_0d a c index T /\
    mbb_sed_0d a b index T * mbb_sed_0d b a index T = 1.
Proof.
  intros HA a b c index T Ha Hb Hc Ba Bb Bc.
  assert (Hchain : forall x y z, 0 < x -> 0 < y -> 0 < z ->
            blackbody_nu x T <> 0 -> blackbody_nu y T <> 0 -> blackbody_nu z T <> 0 ->
            mbb_sed_0d x y index T * mbb_sed_0d y z index T = mbb_sed_0d x z index T).
  { intros x y z Hx Hy Hz Bx By Bz. unfold mbb_sed_0d, blackbody_ratio_0d.
    replace (Rpower (x / y) (index - 2) * (blackbody_nu x T / blackbody_nu y T)
             * (Rpower (y / z) (index - 2) * (blackbody_nu y T / blackbody_nu z T)))
      with (Rpower (x / y) (index - 2) * Rpower (y / z) (index - 2)
            * (blackbody_nu x T / blackbody_nu z T)) by (field; auto).
    rewrite Rpower_mult_distr by (apply Rdiv_lt_0_compat; assumption).
    replace (x / y * (y / z)) with (x / z) by (field; lra). reflexivity. }
  split; [now apply Hchain|].
  rewrite Hchain by assumption. now apply mbb_sed_0d_anchor.
Qed.

Lemma X2_witness :
  @mbb_sed_0d Demo.planck 100 353 1.5 20 * @mbb_sed_0d Demo.planck 353 30 1.5 20
    = @mbb_sed_0d Demo.planck 100 30 1.5 20 /\
  @mbb_sed_0d Demo.planck 100 353 1.5 20 * @mbb_sed_0d Demo.planck 353 100 1.5 20 = 1.
Proof.
  apply (@X2_mbb_sed_chain Demo.planck 100 353 30 1.5 20); try lra.
  - pose proof (planck_pos 100 20 ltac:(lra) ltac:(lra)). lra.
  - pose proof (planck_pos 353 20 ltac:(lra) ltac:(lra)). lra.
  - pose proof (planck_pos 30 20 ltac:(lra) ltac:(lra)). lra.
Defined.

(** ** ModifiedBlackBody *)

Lemma map3_unit (idx tmp t : vec R) (g : R -> R -> R) :
  length idx = length t -> length tmp = length t ->
  (forall b T, In T tmp -> g b T = 1) ->
  map3 (fun b T v => g b T * v) idx tmp t = t.
Proof.
  revert idx tmp. induction t as [|v t IH]; intros [|b idx] [|T tmp] E1 E2 Hg;
    simpl in *; try discriminate; try reflexivity.
  rewrite (Hg b T) by now left. f_equal; [lra|].
  apply IH; try congruence. intros b' T' HT. apply Hg. now right.
Qed.

Lemma nth_mbb_expected `{Astro} fs refs idx tmp iqu i :
  (i < length fs)%nat ->
  nth i (mbb_expected fs refs idx tmp iqu) [] =
  map2 (fun r t => map3 (fun b T v => mbb_sed_0d (nth i fs 0) r b T * v) idx tmp t)
       refs iqu.
Proof.
  intros Hi. unfold mbb_expected.
  exact (nth_map_in
           (fun f => map2 (fun r t =>
              map3 (fun b T v => mbb_sed_0d f r b T * v) idx tmp t) refs iqu)
           fs 0 [] i Hi).
Qed.

(** X3: evaluated at the reference frequency the model returns the
    reference template unchanged: the I row where the requested frequency
    is the intensity reference, the Q and U rows where it is the
    polarization reference. *)
Theorem X3_get_emission_at_reference :
  forall `{Astro} (self : pyobj) (freqs : freq_input) (fs : vec R)
         (rI rP : R) (idx tmp tI tQ tU : vec R) (i : nat),
    self !! ModifiedBlackBody.iqu_ref_freqs_ = Some (PArr1 [rI; rP; rP]) ->
    self !! ModifiedBlackBody.mbb_index_ = Some (PArr2 [idx]) ->
    self !! ModifiedBlackBody.mbb_temperature_ = Some (PArr2 [tmp]) ->
    self !! ModifiedBlackBody.iqu_ref_ = Some (PArr2 [tI; tQ; tU]) ->
    length tmp = length idx -> length tI = length idx ->
    length tQ = length idx -> length tU = length idx ->
    check_freq_input freqs = Ok fs ->
    (i < length fs)%nat ->
    Forall (fun T => blackbody_nu (nth i fs 0) T <> 0) tmp ->
    exists A : arr3 R,
      ModifiedBlackBody.get_emission self freqs = Ok [A] /\
      (nth i fs 0 = rI -> nth 0 (nth i A []) [] = tI) /\
      (nth i fs 0 = rP -> nth 1 (nth i A []) [] = tQ /\
                          nth 2 (nth i A []) [] = tU).
Proof.
  intros HA self freqs fs rI rP idx tmp tI tQ tU i H1 H2 H3 H4 L1 L2 L3 L4 Hc
         Hi HB.
  exists (mbb_expected fs [rI; rP; rP] idx tmp [tI; tQ; tU]).
  split; [now apply get_emission_closed_form|].
  rewrite nth_mbb_expected by assumption. cbn [map2 nth].
  assert (Hf : 0 < nth i fs 0).
  { destruct freqs as [f|l]; unfold check_freq_input in Hc.
    - destruct (all_positive [f]) eqn:E; [|discriminate]. injection Hc as <-.
      unfold all_positive in E. simpl in E.
      destruct i as [|i]; [|simpl in Hi; lia]. simpl.
      destruct (Rlt_dec 0 f); [assumption|discriminate].
    - destruct l as [|x l]; [discriminate|].
      destruct (all_positive (x :: l)) eqn:E; [|discriminate]. injection Hc as <-.
      clear - E Hi. unfold all_positive in E. rewrite forallb_forall in E.
      specialize (E (nth i (x :: l) 0) (nth_In _ _ Hi)).
      destruct (Rlt_dec 0 (nth i (x :: l) 0)); [assumption|discriminate]. }
  assert (Hone : forall b T, In T tmp -> mbb_sed_0d (nth i fs 0) (nth i fs 0) b T = 1).
  { intros b T HT. apply mbb_sed_0d_anchor; [assumption|].
    rewrite List.Forall_forall in HB. now apply HB. }
  split.
  - intros <-. apply map3_unit; try congruence. exact Hone.
  - intros <-. split; apply map3_unit; try congruence; exact Hone.
Qed.

Lemma X3_witness :
  exists A : arr3 R,
    @ModifiedBlackBody.get_emission Demo.planck Demo.dust (FArray [100; 353]) = Ok [A] /\
    (nth 1 [100; 353] 0 = 353 -> nth 0 (nth 1 A []) [] = [1]) /\
    (nth 1 [100; 353] 0 = 353 -> nth 1 (nth 1 A []) [] = [2] /\
                                 nth 2 (nth 1 A []) [] = [3]).
Proof.
  apply (@X3_get_emission_at_reference Demo.planck Demo.dust (FArray [100; 353])
           [100; 353] 353 353 [1.5] [20] [1] [2] [3] 1%nat); try reflexivity.
  - apply check_freq_input_array_ok; [discriminate|repeat constructor; lra].
  - simpl; lia.
  - repeat constructor. cbn [nth].
    pose proof (planck_pos 353 20 ltac:(lra) ltac:(lra)). lra.
Defined.

(** X4: Q and U are scaled by the same factor at every frequency and
    pixel, so the polarization direction of the template is kept:
    [Q_out * U_ref = U_out * Q_ref]. *)
Theorem X4_get_emission_keeps_polarization_direction :
  forall `{Astro} (self : pyobj) (freqs : freq_input) (fs : vec R)
         (rI rP : R) (idx tmp tI tQ tU : vec R),
    self !! ModifiedBlackBody.iqu_ref_freqs_ = Some (PArr1 [rI; rP; rP]) ->
    self !! ModifiedBlackBody.mbb_index_ = Some (PArr2 [idx]) ->
    self !! ModifiedBlackBody.mbb_temperature_ = Some (PArr2 [tmp]) ->
    self !! ModifiedBlackBody.iqu_ref_ = Some (PArr2 [tI; tQ; tU]) ->
    length tmp = length idx -> length tI = length idx ->
    length tQ = length idx -> length tU = length idx ->
    check_freq_input freqs = Ok fs ->
    exists A : arr3 R,
      ModifiedBlackBody.get_emission self freqs = Ok [A] /\
      forall i x, (i < length fs)%nat -> (x < length idx)%nat ->
        nth x (nth 1 (nth i A []) []) 0 * nth x tU 0 =
        nth x (nth 2 (nth i A []) []) 0 * nth x tQ 0.
Proof.
  intros HA self freqs fs rI rP idx tmp tI tQ tU H1 H2 H3 H4 L1 L2 L3 L4 Hc.
  exists (mbb_expected fs [rI; rP; rP] idx tmp [tI; tQ; tU]).
  split; [now apply get_emission_closed_form|].
  intros i x Hi Hx. rewrite nth_mbb_expected by assumption. cbn [map2 nth].
  rewrite !(map3_nth _ idx tmp _ 0 0 0 0) by congruence. ring.
Qed.

Lemma X4_witness :
  exists A : arr3 R,
    @ModifiedBlackBody.get_emission Demo.planck Demo.dust (FArray [100]) = Ok [A] /\
    forall i x, (i < 1)%nat -> (x < 1)%nat ->
      nth x (nth 1 (nth i A []) []) 0 * nth x [3] 0 =
      nth x (nth 2 (nth i A []) []) 0 * nth x [2] 0.
Proof.
  apply (@X4_get_emission_keeps_polarization_direction Demo.planck Demo.dust
           (FArray [100]) [100] 353 353 [1.5] [20] [1] [2] [3]); try reflexivity.
  apply check_freq_input_array_ok; [discriminate|repeat constructor; lra].
Defined.

(** X5: the frequency axis is evaluated point by point: the block returned
    for a concatenated list of frequencies is the concatenation of the
    blocks returned for the two lists. *)
Theorem X5_get_emission_concat_frequencies :
  forall `{Astro} (self : pyobj) (fs1 fs2 : vec R)
         (rI rP : R) (idx tmp tI tQ tU : vec R),
    self !! ModifiedBlackBody.iqu_ref_freqs_ = Some (PArr1 [rI; rP; rP]) ->
    self !! ModifiedBlackBody.mbb_index_ = Some (PArr2 [idx]) ->
    self !! ModifiedBlackBody.mbb_temperature_ = Some (PArr2 [tmp]) ->
    self !! ModifiedBlackBody.iqu_ref_ = Some (PArr2 [tI; tQ; tU]) ->
    length tmp = length idx -> length tI = length idx ->
    length tQ = length idx -> length tU = length idx ->
    fs1 <> [] -> fs2 <> [] ->
    Forall (fun f => 0 < f) fs1 -> Forall (fun f => 0 < f) fs2 ->
    exists A1 A2 : arr3 R,
      ModifiedBlackBody.get_emission self (FArray fs1) = Ok [A1] /\
      ModifiedBlackBody.get_emission self (FArray fs2) = Ok [A2] /\
      ModifiedBlackBody.get_emission self (FArray (fs1 ++ fs2)) = Ok [A1 ++ A2].
Proof.
  intros HA self fs1 fs2 rI rP idx tmp tI tQ tU H1 H2 H3 H4 L1 L2 L3 L4
         N1 N2 P1 P2.
  exists (mbb_expected fs1 [rI; rP; rP] idx tmp [tI; tQ; tU]),
         (mbb_expected fs2 [rI; rP; rP] idx tmp [tI; tQ; tU]).
  repeat split.
  - apply get_emission_closed_form; try assumption.
    now apply check_freq_input_array_ok.
  - apply get_emission_closed_form; try assumption.
    now apply check_freq_input_array_ok.
  - rewrite (get_emission_closed_form self (FArray (fs1 ++ fs2)) (fs1 ++ fs2)
               rI rP rP idx tmp tI tQ tU); try assumption.
    + unfold mbb_expected. now rewrite map_app.
    + apply check_freq_input_array_ok.
      * destruct fs1; [contradiction|discriminate].
      * apply Forall_app. now split.
Qed.

Lemma X5_witness :
  exists A1 A2 : arr3 R,
    @ModifiedBlackBody.get_emission Demo.planck Demo.dust (FArray [100]) = Ok [A1] /\
    @ModifiedBlackBody.get_emission Demo.planck Demo.dust (FArray [30; 353]) = Ok [A2] /\
    @ModifiedBlackBody.get_emission Demo.planck Demo.dust (FArray ([100] ++ [30; 353]))
      = Ok [A1 ++ A2].
Proof.
  apply (@X5_get_emission_concat_frequencies Demo.planck Demo.dust [100] [30; 353]
           353 353 [1.5] [20] [1] [2] [3]); try reflexivity; try discriminate;
    repeat constructor; lra.
Defined.

(** X6: the constructor refuses a template whose length is neither the
    pixel count nor 1: the assignment into the [(3, npix)] template array
    cannot broadcast it.  (Shown for the I template; the index and
    temperature maps are stored without such a check.) *)
Theorem X6_init_rejects_short_template :
  forall `{MapIO} (self0 self1 : pyobj)
         (map_I map_Q map_U unit_I unit_Q unit_U freq_ref_I freq_ref_P
          map_mbb_index map_mbb_temperature nside mpi_comm : pyval)
         (idx tmp mI : vec R) (rI rP : R) (npix : nat),
    Model___init__ self0 mpi_comm = Ok self1 ->
    read_map map_mbb_index nside = Ok idx ->
    read_map map_mbb_temperature nside = Ok tmp ->
    freq_ref_I = PNum rI -> freq_ref_P = PNum rP ->
    nside2npix nside = Ok npix ->
    read_map map_I nside = Ok mI ->
    length mI <> npix -> length mI <> 1%nat ->
    ModifiedBlackBody.__init__ self0 map_I map_Q map_U unit_I unit_Q unit_U
      freq_ref_I freq_ref_P map_mbb_index map_mbb_temperature nside mpi_comm
    = Raise ValueError.
Proof.
  intros HM self0 self1 map_I map_Q map_U unit_I unit_Q unit_U fI fP mi mt
         nside comm idx tmp mI rI rP npix Hm Hi Ht -> -> Hn HI Hlen Hone.
  unfold ModifiedBlackBody.__init__.
  rewrite Hm. cbn [bind]. rewrite Hi. cbn [bind]. rewrite Ht. cbn [bind py_float].
  rewrite Hn. cbn [bind]. rewrite HI. cbn [bind].
  unfold ModifiedBlackBody.assign_row.
  apply Nat.eqb_neq in Hlen. rewrite Hlen.
  destruct mI as [|x [|y mI]]; try reflexivity. now contradiction Hone.
Qed.

Lemma X6_witness :
  @ModifiedBlackBody.__init__ Demo2.short_map_io ∅
     (PPath "I") (PPath "Q") (PPath "U") PNone PNone PNone (PNum 353) (PNum 353)
     (PPath "index") (PPath "temperature") (PNum 64) PNone
  = Raise ValueError.
Proof.
  apply (@X6_init_rejects_short_template Demo2.short_map_io ∅ ∅
           (PPath "I") (PPath "Q") (PPath "U") PNone PNone PNone (PNum 353)
           (PNum 353) (PPath "index") (PPath "temperature") (PNum 64) PNone
           [1; 2] [1; 2] [1; 2] 353 353 3%nat); try reflexivity;
    simpl; lia.
Defined.

(** ** DecorrelatedModifiedBlackBody *)

(** X7: called as documented, with a path for [map_mbb_temperature], the
    constructor never returns an instance: the parent receives that path
    in the position of [freq_ref_I] and [float] refuses it (when nothing
    has failed before). *)
Theorem X7_decorrelated_init_rejects_documented_call :
  forall `{MapIO} (self0 : pyobj)
         (map_I map_Q map_U freq_ref_I freq_ref_P map_mbb_index nside mpi_comm
          correlation_length : pyval) (p : string) (self : pyobj),
    DecorrelatedModifiedBlackBody.__init__ self0 map_I map_Q map_U freq_ref_I
      freq_ref_P map_mbb_index (PPath p) nside mpi_comm correlation_length
    <> Ok self.
Proof.
  intros HM self0 map_I map_Q map_U fI fP mi nside comm cl p self Hinit.
  unfold DecorrelatedModifiedBlackBody.__init__ in Hinit.
  bind_inv Hinit s E. apply init_attributes in E.
  destruct E as (_ & _ & _ & rI & _ & _ & _ & _ & _ & _ & _ & _ & HrI & _).
  discriminate HrI.
Qed.

(** X8: how the constructor ends does not depend on the reference
    frequencies, the index map or the correlation length it is given.
    The first three reach the parent in the positions of [unit_I],
    [unit_Q] and [unit_U], which the parent never reads; the assignment
    of [correlation_length] is never reached, because the parent asks
    healpy for the pixel count of the resolution [None]. *)
Theorem X8_decorrelated_init_ignores_arguments :
  forall `{MapIO} (self0 : pyobj)
         (map_I map_Q map_U freq_ref_I freq_ref_P map_mbb_index
          map_mbb_temperature nside mpi_comm correlation_length : pyval)
         (freq_ref_I' freq_ref_P' map_mbb_index' correlation_length' : pyval),
    nside2npix_refuses_None ->
    DecorrelatedModifiedBlackBody.__init__ self0 map_I map_Q map_U freq_ref_I
      freq_ref_P map_mbb_index map_mbb_temperature nside mpi_comm
      correlation_length
    = DecorrelatedModifiedBlackBody.__init__ self0 map_I map_Q map_U
        freq_ref_I' freq_ref_P' map_mbb_index' map_mbb_temperature nside
        mpi_comm correlation_length'.
Proof.
  intros HM self0 map_I map_Q map_U fI fP mi mt nside comm cl fI' fP' mi' cl'
         Hlaw.
  unfold DecorrelatedModifiedBlackBody.__init__.
  change (ModifiedBlackBody.__init__ self0 map_I map_Q map_U fI' fP' mi' mt
            nside comm PNone PNone PNone)
    with (ModifiedBlackBody.__init__ self0 map_I map_Q map_U fI fP mi mt
            nside comm PNone PNone PNone).
  destruct (ModifiedBlackBody.__init__ self0 map_I map_Q map_U fI fP mi mt
              nside comm PNone PNone PNone) as [s|e|st] eqn:E;
    [|reflexivity..].
  apply init_attributes in E.
  destruct E as (_ & _ & _ & _ & _ & _ & _ & _ & npix & _ & _ & _ & _ & _ & Hn
                 & _).
  unfold nside2npix_refuses_None in Hlaw. rewrite Hn in Hlaw. discriminate Hlaw.
Qed.

Lemma X8_witness :
  @DecorrelatedModifiedBlackBody.__init__ Demo.healpix_io ∅
     (PPath "I") (PPath "Q") (PPath "U") (PNum 353) (PNum 353) (PPath "index")
     (PPath "temperature") (PNum 1) PNone (PNum 0.1)
  = @DecorrelatedModifiedBlackBody.__init__ Demo.healpix_io ∅
     (PPath "I") (PPath "Q") (PPath "U") (PNum 30) (PNum 44) (PPath "other")
     (PPath "temperature") (PNum 1) PNone (PNum 5).
Proof.
  apply (@X8_decorrelated_init_ignores_arguments Demo.healpix_io ∅
           (PPath "I") (PPath "Q") (PPath "U") (PNum 353) (PNum 353)
           (PPath "index") (PPath "temperature") (PNum 1) PNone (PNum 0.1)
           (PNum 30) (PNum 44) (PPath "other") (PNum 5)).
  reflexivity.
Defined.

(** ** Frequency correlation model *)

Lemma exp_le_mono (x y : R) : x <= y -> exp x <= exp y.
Proof.
  intros [Hlt | ->]; [left; now apply exp_increasing | right; reflexivity].
Qed.

Lemma ln_ratio_zero (a b : R) : 0 < a -> 0 < b -> (ln (a / b) = 0 <-> a = b).
Proof.
  intros Ha Hb. split.
  - intros H0. rewrite <- ln_1 in H0.
    apply ln_inv in H0; [|apply Rdiv_lt_0_compat; assumption|lra].
    apply (f_equal (fun t => t * b)) in H0. field_simplify in H0; lra.
  - intros ->. replace (b / b) with 1 by (field; lra). apply ln_1.
Qed.

(** X9: for positive frequencies and a non-zero correlation length every
    entry is a correlation coefficient between 0 and 1 (both included),
    and it is 1 wherever the two frequencies are equal, on and off the
    diagonal. *)
Theorem X9_frequency_decorr_model_bounds :
  forall (freqs : vec R) (L : R) (i j : nat),
    Forall (fun f => 0 < f) freqs -> L <> 0 ->
    (i < length freqs)%nat -> (j < length freqs)%nat ->
    exists e : R,
      entry NaN (frequency_decorr_model freqs L) i j = Fin e /\
      0 <= e <= 1 /\
      (nth i freqs 0 = nth j freqs 0 -> e = 1).
Proof.
  intros freqs L i j Hpos HL Hi Hj.
  pose proof (Forall_pos_nth freqs i Hpos Hi) as Hfi.
  pose proof (Forall_pos_nth freqs j Hpos Hj) as Hfj.
  set (l := ln (nth i freqs 0 / nth j freqs 0)).
  exists (exp (- 0.5 * (l / L) ^ 2)).
  split; [now apply frequency_decorr_model_finite|].
  assert (Hsq : 0 <= (l / L) ^ 2) by (apply pow2_ge_0).
  split; [split|].
  - left. apply exp_pos.
  - rewrite <- exp_0. apply exp_le_mono. lra.
  - intros Heq. apply (ln_ratio_zero _ _ Hfi Hfj) in Heq. fold l in Heq.
    rewrite Heq. replace (- 0.5 * (0 / L) ^ 2) with 0 by (field; assumption).
    apply exp_0.
Qed.

Lemma X9_witness :
  exists e : R,
    entry NaN (frequency_decorr_model [100; 353; 100] 2) 0 2 = Fin e /\
    0 <= e <= 1 /\
    (nth 0 [100; 353; 100] 0 = nth 2 [100; 353; 100] 0 -> e = 1).
Proof.
  apply (X9_frequency_decorr_model_bounds [100; 353; 100] 2 0 2).
  - repeat constructor; lra.
  - lra.
  - simpl; lia.
  - simpl; lia.
Defined.

(** X10: the matrix depends on frequency ratios only: multiplying every
    frequency by the same positive factor (a change of unit) leaves it
    unchanged, for every correlation length. *)
Theorem X10_frequency_decorr_model_scale_invariant :
  forall (freqs : vec R) (L k : R),
    0 < k -> Forall (fun f => 0 < f) freqs ->
    frequency_decorr_model (map (Rmult k) freqs) L = frequency_decorr_model freqs L.
Proof.
  intros freqs L k Hk Hpos. unfold frequency_decorr_model, mmap, outer.
  rewrite !map_map. apply map_ext_in. intros a Ha.
  rewrite !map_map. apply map_ext_in. intros b Hb.
  pose proof (Forall_pos_In _ _ Hpos Ha). pose proof (Forall_pos_In _ _ Hpos Hb).
  assert (Hkb : 0 < k * b) by (apply Rmult_lt_0_compat; assumption).
  rewrite !xdiv_fin by lra.
  replace (k * a / (k * b)) with (a / b) by (field; lra). reflexivity.
Qed.

Lemma X10_witness :
  frequency_decorr_model (map (Rmult 1000) [100; 353]) 2 =
  frequency_decorr_model [100; 353] 2.
Proof.
  apply (X10_frequency_decorr_model_scale_invariant [100; 353] 2 1000).
  - lra.
  - repeat constructor; lra.
Defined.

(** X11: with [correlation_length = 0] and positive frequencies the entry
    of two different frequencies is 0 and the entry of two equal
    frequencies, the diagonal included, is NaN. *)
Theorem X11_frequency_decorr_model_zero_length :
  forall (freqs : vec R) (i j : nat),
    Forall (fun f => 0 < f) freqs ->
    (i < length freqs)%nat -> (j < length freqs)%nat ->
    (nth i freqs 0 = nth j freqs 0 ->
       entry NaN (frequency_decorr_model freqs 0) i j = NaN) /\
    (nth i freqs 0 <> nth j freqs 0 ->
       entry NaN (frequency_decorr_model freqs 0) i j = Fin 0).
Proof.
  intros freqs i j Hpos Hi Hj.
  pose proof (Forall_pos_nth freqs i Hpos Hi) as Hfi.
  pose proof (Forall_pos_nth freqs j Hpos Hj) as Hfj.
  rewrite frequency_decorr_model_entry by assumption.
  rewrite xdiv_fin by lra.
  rewrite xlog_fin by (apply Rdiv_lt_0_compat; assumption).
  pose proof (ln_ratio_zero _ _ Hfi Hfj) as Hz.
  set (l := ln (nth i freqs 0 / nth j freqs 0)) in *.
  split.
  - intros E. apply Hz in E. rewrite E. rewrite xdiv_zero_zero. reflexivity.
  - intros N. assert (Hl : l <> 0) by (intros E; apply N, Hz, E).
    cbn [xdiv]. rewrite sgn_zero.
    assert (Hneg : sgn (- 0.5) = Neg) by (apply sgn_neg; lra).
    destruct (Rtotal_order l 0) as [Hlt|[Heq|Hgt]]; [|contradiction|].
    + rewrite (sgn_neg l Hlt). cbn. rewrite Hneg. reflexivity.
    + rewrite (sgn_pos l Hgt). cbn. rewrite Hneg. reflexivity.
Qed.

Lemma X11_witness :
  (nth 0 [100; 353] 0 = nth 1 [100; 353] 0 ->
     entry NaN (frequency_decorr_model [100; 353] 0) 0 1 = NaN) /\
  (nth 0 [100; 353] 0 <> nth 1 [100; 353] 0 ->
     entry NaN (frequency_decorr_model [100; 353] 0) 0 1 = Fin 0).
Proof.
  apply (X11_frequency_decorr_model_zero_length [100; 353] 0 1).
  - repeat constructor; lra.
  - simpl; lia.
  - simpl; lia.
Defined.

(** X12: a longer correlation length never lowers a correlation: for
    [0 < L1 <= L2] every entry computed with [L1] is at most the entry
    computed with [L2]. *)
Theorem X12_frequency_decorr_model_monotone :
  forall (freqs : vec R) (L1 L2 : R) (i j : nat),
    Forall (fun f => 0 < f) freqs -> 0 < L1 -> L1 <= L2 ->
    (i < length freqs)%nat -> (j < length freqs)%nat ->
    exists e1 e2 : R,
      entry NaN (frequency_decorr_model freqs L1) i j = Fin e1 /\
      entry NaN (frequency_decorr_model freqs L2) i j = Fin e2 /\
      e1 <= e2.
Proof.
  intros freqs L1 L2 i j Hpos HL1 HL Hi Hj.
  set (l := ln (nth i freqs 0 / nth j freqs 0)).
  exists (exp (- 0.5 * (l / L1) ^ 2)), (exp (- 0.5 * (l / L2) ^ 2)).
  split; [apply frequency_decorr_model_finite; try assumption; lra|].
  split; [apply frequency_decorr_model_finite; try assumption; lra|].
  apply exp_le_mono.
  assert (Hb : 0 < / L2) by (apply Rinv_0_lt_compat; lra).
  assert (Hab : / L2 <= / L1) by (apply Rinv_le_contravar; assumption).
  assert (Hsq : (/ L2) ^ 2 <= (/ L1) ^ 2) by nra.
  assert (Hl : 0 <= l ^ 2) by apply pow2_ge_0.
  replace ((l / L1) ^ 2) with (l ^ 2 * (/ L1) ^ 2) by (field; lra).
  replace ((l / L2) ^ 2) with (l ^ 2 * (/ L2) ^ 2) by (field; lra).
  nra.
Qed.

Lemma X12_witness :
  exists e1 e2 : R,
    entry NaN (frequency_decorr_model [100; 353] 1) 0 1 = Fin e1 /\
    entry NaN (frequency_decorr_model [100; 353] 5) 0 1 = Fin e2 /\
    e1 <= e2.
Proof.
  apply (X12_frequency_decorr_model_monotone [100; 353] 1 5 0 1).
  - repeat constructor; lra.
  - lra.
  - lra.
  - simpl; lia.
  - simpl; lia.
Defined.

(** ** Safe inversion *)

(** X14: an empty matrix has no smallest eigenvalue: [invert_safe] raises
    [ValueError] in its first pass, for an eigensolver that returns no
    eigenvalue for it. *)
Theorem X14_invert_safe_empty_matrix :
  forall `{LinAlg} (fuel : nat),
    fst (eigh []) = [] -> invert_safe (S fuel) [] = Raise ValueError.
Proof.
  intros HL fuel Hnil. unfold invert_safe. cbn [invert_safe_loop].
  destruct (eigh []) as [w v]. cbn [fst] in Hnil. subst w. reflexivity.
Qed.

Lemma X14_witness : @invert_safe Demo.diag_eigh 3 [] = Raise ValueError.
Proof. apply (@X14_invert_safe_empty_matrix Demo.diag_eigh 2). reflexivity. Defined.

(** X15: whatever number of loading passes is needed, a returned inverse
    has as many rows as the input, for an eigensolver that returns one row
    of eigenvector components per input row. *)
Theorem X15_invert_safe_keeps_row_count :
  forall `{LinAlg} (fuel : nat) (m inv : matrix R),
    eigh_rows -> invert_safe fuel m = Ok inv -> length inv = length m.
Proof. intros HL fuel m inv Hrows Hinv. now apply invert_safe_rows in Hinv. Qed.

Lemma demo_eigh_rows : @eigh_rows Demo.diag_eigh.
Proof.
  intros m. cbn [eigh Demo.diag_eigh snd].
  destruct (diag_shape (repeat 1 (length m))) as [Hd _].
  now rewrite Hd, repeat_length.
Qed.

Lemma X15_witness :
  exists inv, @invert_safe Demo.diag_eigh 1 [[2; 0]; [0; 4]] = Ok inv /\
              length inv = 2%nat.
Proof.
  assert (E : @invert_safe Demo.diag_eigh 1 [[2; 0]; [0; 4]]
              = reconstruct_inverse [2; 4] [[1; 0]; [0; 1]]).
  { unfold invert_safe.
    rewrite (@invert_safe_loop_positive Demo.diag_eigh 0 [[2; 0]; [0; 4]]
               [2; 4] [[1; 0]; [0; 1]] 2); [reflexivity|reflexivity| |lra].
    cbn [np_min fold_left]. f_equal. apply Rmin_left. lra. }
  destruct (reconstruct_inverse_ok [2; 4] [[1; 0]; [0; 1]]) as (inv & Hinv & _);
    [discriminate|reflexivity|repeat constructor|].
  exists inv. rewrite E. split; [exact Hinv|].
  apply (@X15_invert_safe_keeps_row_count Demo.diag_eigh 1 [[2; 0]; [0; 4]] inv).
  - exact demo_eigh_rows.
  - rewrite E. exact Hinv.
Defined.

(** ** Shapes of the linear algebra *)

Lemma is_shape_nth r c m i :
  is_shape r c m -> (i < r)%nat -> length (nth i m []) = c.
Proof.
  intros [Hl Hr] Hi. rewrite List.Forall_forall in Hr. apply Hr, nth_In. lia.
Qed.

Lemma transpose_shape r c m :
  (0 < r)%nat -> is_shape r c m -> is_shape c r (transpose m).
Proof.
  intros Hr [Hl Hrows]. destruct m as [|row m]; [simpl in Hl; lia|].
  unfold transpose. split.
  - rewrite length_map, length_seq. now inversion Hrows.
  - apply List.Forall_forall. intros x Hx. apply in_map_iff in Hx as (j & <- & _).
    unfold col. now rewrite length_map.
Qed.

Lemma dot_shape r k c a b :
  (0 < k)%nat -> is_shape r k a -> is_shape k c b ->
  exists p, dot a b = Ok p /\ is_shape r c p.
Proof.
  intros Hk [Ha Hra] Hb. pose proof (transpose_shape k c b Hk Hb) as [Ht _].
  destruct Hb as [Hb Hrb].
  rewrite dot_ok by (rewrite Hb; exact Hra).
  eexists. split; [reflexivity|]. split.
  - now rewrite length_map.
  - apply List.Forall_forall. intros x Hx. apply in_map_iff in Hx as (row & <- & _).
    now rewrite length_map.
Qed.

Lemma dot_shape_mismatch r k k' a b :
  (0 < r)%nat -> is_shape r k a -> length b = k' -> k <> k' ->
  dot a b = Raise ValueError.
Proof.
  intros Hr [Ha Hra] Hb Hne. unfold dot.
  destruct a as [|row a]; [simpl in Ha; lia|].
  cbn [forallb]. inversion Hra as [|? ? Hrow _]; subst.
  assert (E : (length row =? length b)%nat = false) by now apply Nat.eqb_neq.
  rewrite E. reflexivity.
Qed.

Lemma diag_is_shape (w : vec R) : is_shape (length w) (length w) (diag w).
Proof. destruct (diag_shape w). now split. Qed.

Lemma map2_Forall_length {A B C} (f : A -> B -> C) (la : list (list A))
    (lb : list (list B)) n :
  Forall (fun r => length r = n) la -> Forall (fun r => length r = n) lb ->
  Forall (fun r => length r = n) (map2 (map2 f) la lb).
Proof.
  intros Ha. revert lb. induction Ha as [|x la Hx _ IH]; intros lb Hb;
    [constructor|].
  destruct Hb as [|y lb Hy Hb]; [constructor|].
  simpl. constructor; [|now apply IH].
  rewrite map2_length; congruence.
Qed.

Lemma madd_shape n a b : is_shape n n a -> is_shape n n b -> is_shape n n (madd a b).
Proof.
  intros [Ha Hra] [Hb Hrb]. split.
  - rewrite madd_length; congruence.
  - now apply map2_Forall_length.
Qed.

Section Shape_lemmas.
Context `{LinAlg}.

Lemma invert_safe_loop_shape fuel n m w v :
  eigh_square -> is_shape n n m -> invert_safe_loop fuel m = Ok (w, v) ->
  (0 < n)%nat /\ length w = n /\ is_shape n n v.
Proof.
  intros Hsq. revert m. induction fuel as [|fuel IH]; intros m Hm Hloop.
  - discriminate.
  - cbn [invert_safe_loop] in Hloop.
    destruct (Hsq n m Hm) as [Hw Hv].
    destruct (eigh m) as [w0 v0]. cbn [fst snd] in Hw, Hv.
    destruct (np_min w0) as [wmin| |] eqn:Hmin; cbn [bind] in Hloop;
      try discriminate.
    destruct (Rlt_dec 0 wmin).
    + injection Hloop as <- <-. repeat split; try apply Hv; try assumption.
      destruct w0; [discriminate|simpl in Hw; lia].
    + apply IH in Hloop; [assumption|].
      apply madd_shape; [assumption|].
      destruct Hm as [Hlen _]. rewrite Hlen.
      pose proof (diag_is_shape (map (Rmult (2 * Rmax 1e-14 (- wmin)))
                                     (repeat 1 n))) as Hd.
      now rewrite length_map, repeat_length in Hd.
Qed.

Lemma reconstruct_inverse_shape n w v :
  (0 < n)%nat -> length w = n -> is_shape n n v ->
  exists inv, reconstruct_inverse w v = Ok inv /\ is_shape n n inv.
Proof.
  intros Hn Hw Hv. unfold reconstruct_inverse.
  pose proof (diag_is_shape (map (fun x => 1 / x) w)) as Hd.
  rewrite length_map, Hw in Hd.
  destruct (dot_shape n n n _ _ Hn Hd (transpose_shape n n v Hn Hv))
    as (inner & -> & Hinner).
  cbn [bind]. now apply dot_shape with (k := n).
Qed.

Lemma invert_safe_shape fuel n m inv :
  eigh_square -> is_shape n n m -> invert_safe fuel m = Ok inv ->
  (0 < n)%nat /\ is_shape n n inv.
Proof.
  intros Hsq Hm Hinv. unfold invert_safe in Hinv.
  bind_inv Hinv wv Hloop. destruct wv as [w v].
  destruct (invert_safe_loop_shape fuel n m w v Hsq Hm Hloop) as (Hn & Hw & Hv).
  split; [assumption|].
  destruct (reconstruct_inverse_shape n w v Hn Hw Hv) as (inv' & E & Hs).
  rewrite E in Hinv. now injection Hinv as <-.
Qed.

End Shape_lemmas.

Lemma finite_vec_length (v : vec xreal) (r : vec R) :
  finite_vec v = Some r -> length r = length v.
Proof.
  revert r. induction v as [|x v IH]; intros r Hr.
  - now injection Hr as <-.
  - simpl in Hr. destruct x; try discriminate.
    destruct (finite_vec v) as [l|]; [|discriminate].
    injection Hr as <-. simpl. now rewrite (IH l eq_refl).
Qed.

Lemma finite_matrix_shape (m : matrix xreal) (c : matrix R) (n : nat) :
  Forall (fun row => length row = n) m ->
  finite_matrix m = Ok c -> is_shape (length m) n c.
Proof.
  intros Hm. revert c. induction Hm as [|row m Hrow _ IH]; intros c Hc.
  - injection Hc as <-. split; [reflexivity|constructor].
  - simpl in Hc. destruct (finite_vec row) as [r|] eqn:Er; [|discriminate].
    bind_inv Hc l El. injection Hc as <-.
    destruct (IH l eq_refl) as [Hl Hr]. split.
    + simpl. now rewrite Hl.
    + constructor; [|assumption]. apply finite_vec_length in Er. congruence.
Qed.

Lemma frequency_decorr_model_rows freqs L :
  Forall (fun row => length row = length freqs) (frequency_decorr_model freqs L).
Proof.
  unfold frequency_decorr_model, mmap, outer.
  apply List.Forall_forall. intros row Hrow.
  apply in_map_iff in Hrow as (r1 & <- & H1).
  apply in_map_iff in H1 as (r2 & <- & H2).
  apply in_map_iff in H2 as (a & <- & _).
  now rewrite !length_map.
Qed.

(** ** [np.where] and [np.delete] *)

Lemma in_where_offset (mask : list bool) (k i : nat) :
  In i (map fst (List.filter snd (combine (seq k (length mask)) mask))) <->
  (k <= i)%nat /\ nth (i - k) mask false = true.
Proof.
  revert k. induction mask as [|b mask IH]; intros k.
  - simpl. split; [contradiction|]. intros [_ H]. destruct (i - k)%nat; discriminate.
  - cbn [length seq combine List.filter snd].
    assert (Htl : In i (map fst (List.filter snd
                     (combine (seq (S k) (length mask)) mask))) <->
                  (S k <= i)%nat /\ nth (i - S k) mask false = true) by apply IH.
    destruct b; cbn [map fst In].
    + rewrite Htl. split.
      * intros [<- | [Hle Hn]].
        -- split; [lia|]. now rewrite Nat.sub_diag.
        -- split; [lia|]. replace (i - k)%nat with (S (i - S k)) by lia. exact Hn.
      * intros [Hle Hn]. destruct (Nat.eq_dec k i) as [->|Hne]; [now left|].
        right. split; [lia|].
        replace (i - k)%nat with (S (i - S k)) in Hn by lia. exact Hn.
    + rewrite Htl. split.
      * intros [Hle Hn]. split; [lia|].
        replace (i - k)%nat with (S (i - S k)) by lia. exact Hn.
      * intros [Hle Hn]. destruct (Nat.eq_dec k i) as [->|Hne].
        -- rewrite Nat.sub_diag in Hn. discriminate.
        -- split; [lia|].
           replace (i - k)%nat with (S (i - S k)) in Hn by lia. exact Hn.
Qed.

Lemma existsb_where (mask : list bool) (i : nat) :
  existsb (Nat.eqb i) (np_where mask) = nth i mask false.
Proof.
  destruct (nth i mask false) eqn:E.
  - apply existsb_exists. exists i. split; [|apply Nat.eqb_refl].
    apply in_where_offset. rewrite Nat.sub_0_r. split; [lia|assumption].
  - destruct (existsb (Nat.eqb i) (np_where mask)) eqn:Ex; [|reflexivity].
    apply existsb_exists in Ex as (j & Hj & Hij). apply Nat.eqb_eq in Hij. subst j.
    apply in_where_offset in Hj as [_ Hj]. rewrite Nat.sub_0_r in Hj. congruence.
Qed.

Lemma filter_mask_length {A} (a : list A) (mask : list bool) (k : nat) :
  (length (List.filter (fun ix : nat * A => negb (nth (fst ix - k) mask false))
                       (combine (seq k (length a)) a))
   + count_true (firstn (length a) mask) = length a)%nat.
Proof.
  revert mask k. induction a as [|x a IH]; intros mask k; [reflexivity|].
  cbn [length seq combine List.filter fst]. rewrite Nat.sub_diag.
  assert (Htl : List.filter (fun ix : nat * A => negb (nth (fst ix - k) mask false))
                            (combine (seq (S k) (length a)) a)
                = List.filter (fun ix : nat * A => negb (nth (fst ix - S k) (tl mask) false))
                              (combine (seq (S k) (length a)) a)).
  { apply filter_ext_in. intros [i y] Hin. apply in_combine_l in Hin.
    apply in_seq in Hin. cbn [fst].
    replace (i - k)%nat with (S (i - S k)) by lia.
    destruct mask; [|reflexivity]. simpl. now destruct (i - S k)%nat. }
  rewrite Htl. specialize (IH (tl mask) (S k)).
  destruct mask as [|b mask].
  - cbn [nth tl negb length firstn] in *. unfold count_true in *.
    rewrite firstn_nil in IH. cbn [List.filter length] in *. lia.
  - cbn [nth tl firstn] in *. unfold count_true in *.
    destruct b; cbn [negb List.filter length]; lia.
Qed.

(** Deleting the positions that [np.where] reports shortens an array by
    the number of [True] entries of the mask. *)
Lemma np_delete_where_length {A} (a : list A) (mask : list bool) :
  (length mask <= length a)%nat ->
  (length (np_delete a (np_where mask)) + count_true mask = length a)%nat.
Proof.
  intros Hlen. unfold np_delete. rewrite length_map.
  rewrite (filter_ext_in _ (fun ix : nat * A => negb (nth (fst ix - 0) mask false))).
  - pose proof (filter_mask_length a mask 0) as Hf.
    now rewrite firstn_all2 in Hf by assumption.
  - intros [i y] _. cbn [fst]. now rewrite existsb_where, Nat.sub_0_r.
Qed.

Lemma where_length_offset (mask : list bool) (k : nat) :
  length (List.filter snd (combine (seq k (length mask)) mask)) = count_true mask.
Proof.
  revert k. induction mask as [|b mask IH]; intros k; [reflexivity|].
  cbn [length seq combine List.filter snd]. unfold count_true in *.
  destruct b; cbn [List.filter length]; now rewrite IH.
Qed.

Lemma np_where_length (mask : list bool) :
  length (np_where mask) = count_true mask.
Proof. unfold np_where. rewrite length_map. apply where_length_offset. Qed.

Lemma count_true_le (mask : list bool) : (count_true mask <= length mask)%nat.
Proof. unfold count_true. apply filter_length_le. Qed.

Lemma count_true_member (F : vec R) (f : R) :
  In f F -> (1 <= count_true (map (fun x => Req_bool x f) F))%nat.
Proof.
  induction F as [|x F IH]; [contradiction|].
  intros [-> | Hin]; unfold count_true in *; cbn [map List.filter].
  - rewrite Req_bool_refl. simpl. lia.
  - destruct (Req_bool x f); simpl; [lia|now apply IH].
Qed.

Lemma np_delete_Forall {A} (Q : A -> Prop) (a : list A) (obj : list nat) :
  Forall Q a -> Forall Q (np_delete a obj).
Proof.
  intros Ha. unfold np_delete. apply List.Forall_forall. intros x Hx.
  apply in_map_iff in Hx as ([i y] & <- & Hin).
  apply filter_In in Hin as [Hin _]. apply in_combine_r in Hin.
  rewrite List.Forall_forall in Ha. now apply Ha.
Qed.

Lemma cross_block_length (P : matrix R) (indref : list nat) :
  length (concat (concat (map (fun row => [map (fun i => nth i row 0) indref]) P)))
  = (length P * length indref)%nat.
Proof.
  induction P as [|row P IH]; [reflexivity|].
  cbn [map concat app]. rewrite length_app, length_map, IH.
  simpl. lia.
Qed.

(** The block of [P] without the rows and columns selected by a mask. *)
Lemma delete_block_shape (P : matrix R) (mask : list bool) (N : nat) :
  is_shape N N P -> length mask = N ->
  is_shape (N - count_true mask) (N - count_true mask)
    (map (fun row => np_delete row (np_where mask)) (np_delete P (np_where mask))).
Proof.
  intros [HP Hrows] Hmask. split.
  - rewrite length_map.
    pose proof (np_delete_where_length P mask ltac:(lia)). lia.
  - apply List.Forall_forall. intros r Hr. apply in_map_iff in Hr as (row & <- & Hin).
    pose proof (np_delete_Forall _ P (np_where mask) Hrows) as Hall.
    rewrite List.Forall_forall in Hall. specialize (Hall row Hin).
    pose proof (np_delete_where_length row mask ltac:(lia)). lia.
Qed.

(** ** Decorrelation matrix *)

(** X16: a negative correlation length is refused by the assertion at the
    top of the function, before anything is computed. *)
Theorem X16_get_decorrelation_matrix_negative_length :
  forall `{LinAlg} (fuel : nat) (f : R) (F : vec R) (L : R),
    L < 0 -> get_decorrelation_matrix fuel f F L = Raise AssertionError.
Proof.
  intros HL fuel f F L Hneg. unfold get_decorrelation_matrix.
  destruct (Rle_dec 0 L); [lra|reflexivity].
Qed.

Lemma X16_witness :
  @get_decorrelation_matrix Demo.diag_eigh 3 353 [100; 217] (-1)
  = Raise AssertionError.
Proof.
  apply (@X16_get_decorrelation_matrix_negative_length Demo.diag_eigh 3 353
           [100; 217] (-1)).
  lra.
Defined.

(** X17: whenever the constrained frequency occurs among the unconstrained
    ones, however many others there are, the call returns no pair: the
    lookup by value removes two or more rows and columns, and either the
    remaining block is empty or its size no longer matches the cross
    column. *)
Theorem X17_get_decorrelation_matrix_fails_on_repeated_reference :
  forall `{LinAlg} (fuel : nat) (f : R) (F : vec R) (L : R),
    eigh_square -> In f F ->
    forall r, get_decorrelation_matrix fuel f F L <> Ok r.
Proof.
  intros HL fuel f F L Hsq Hin r. unfold get_decorrelation_matrix.
  destruct (Rle_dec 0 L); [|discriminate].
  destruct (check_freq_input (FScalar f)) as [fc| |] eqn:Hc; cbn [bind];
    try discriminate.
  assert (Hfc : fc = [f]).
  { unfold check_freq_input in Hc. destruct (all_positive [f]); [|discriminate].
    now injection Hc as <-. }
  subst fc. cbn [app]. rewrite bzip_r1. cbn [map]. rewrite Req_bool_refl.
  set (mask := true :: map (fun x => Req_bool x f) F).
  set (N := S (length F)).
  assert (Hmask : length mask = N) by (unfold mask, N; simpl; now rewrite length_map).
  assert (Hk2 : (2 <= count_true mask)%nat).
  { pose proof (count_true_member F f Hin). unfold mask, count_true in *.
    cbn [List.filter length]. lia. }
  pose proof (count_true_le mask) as HkN. rewrite Hmask in HkN.
  destruct (finite_matrix _) as [corr| |] eqn:Hcorr; cbn [bind]; try discriminate.
  apply finite_matrix_shape with (n := N) in Hcorr.
  2: { pose proof (frequency_decorr_model_rows (f :: F) L) as Hr. exact Hr. }
  destruct (frequency_decorr_model_shape (f :: F) L) as [HlenM _].
  rewrite HlenM in Hcorr. change (length (f :: F)) with N in Hcorr.
  destruct (invert_safe fuel corr) as [P| |] eqn:HP; cbn [bind]; try discriminate.
  apply (invert_safe_shape fuel N corr P Hsq Hcorr) in HP as [HN HPs].
  pose proof (delete_block_shape P mask N HPs Hmask) as Hblock.
  destruct (invert_safe fuel _) as [Sm| |] eqn:HS; cbn [bind]; try discriminate.
  apply (invert_safe_shape fuel _ _ Sm Hsq Hblock) in HS as [Hpos HSs].
  destruct (eigh Sm) as [lam V].
  destruct (dot _ (transpose V)) as [inner| |]; cbn [bind]; try discriminate.
  destruct (dot V inner) as [C| |]; cbn [bind]; try discriminate.
  rewrite (dot_shape_mismatch (N - count_true mask) (N - count_true mask)
             (N * count_true mask - count_true mask) Sm); try assumption.
  - discriminate.
  - rewrite transpose_row, length_map.
    pose proof (np_delete_where_length
                  (concat (concat (map (fun row => [map (fun i => nth i row 0)
                                                       (np_where mask)]) P)))
                  mask) as Hd.
    rewrite cross_block_length, np_where_length in Hd.
    destruct HPs as [HlenP _]. rewrite HlenP in Hd.
    assert (N <= N * count_true mask)%nat by nia.
    lia.
  - nia.
Qed.

Lemma demo_eigh_square : @eigh_square Demo.diag_eigh.
Proof.
  intros n m [Hlen _]. cbn [eigh Demo.diag_eigh fst snd]. split.
  - now rewrite length_map, length_seq.
  - pose proof (diag_is_shape (repeat 1 (length m))) as Hd.
    rewrite repeat_length in Hd. subst n. exact Hd.
Qed.

Lemma X17_witness :
  is_ok (@get_decorrelation_matrix Demo.diag_eigh 5 353 [100; 353; 217] 0.1) = false.
Proof.
  pose proof (@X17_get_decorrelation_matrix_fails_on_repeated_reference
                Demo.diag_eigh 5 353 [100; 353; 217] 0.1) as Hthm.
  destruct (@get_decorrelation_matrix Demo.diag_eigh 5 353 [100; 353; 217] 0.1)
    as [r| |]; try reflexivity.
  exfalso. apply (Hthm demo_eigh_square) with (r := r); [|reflexivity].
  right. left. reflexivity.
Defined.




(** ** Spinning dust *)

Lemma spdust_emission_closed (fs I_ref : vec R) (fr : R) (fp : vec xreal) (c : curve) :
  c <> [] -> length fp = length I_ref ->
  compute_spdust_emission_numba fs I_ref fr fp c =
  Ok (map (fun f => [map2 (fun i p => xmul (Fin i) (spdust_scaling_px f fr p c))
                          I_ref fp]) fs).
Proof.
  intros Hc Efp. unfold compute_spdust_emission_numba.
  apply mapM_ok_map. intros f _.
  rewrite spdust_scaling_closed by assumption. cbn [bind].
  pose proof (spdust_row_closed I_ref f fr fp c Efp) as Hr. cbv zeta in Hr.
  destruct (parfor_zip xmul (map Fin I_ref) _) as [v| |]; cbn [bind] in *;
    try discriminate.
  now rewrite Hr.
Qed.

Lemma spdustpol_emission_closed (fs I_ref : vec R) (fr : R) (fp : vec xreal)
    (c : curve) (pa : vec R) (pf : R) :
  c <> [] -> length fp = length I_ref -> length pa = length I_ref ->
  let rowQ := map2 Rmult (map (fun i => i * pf) I_ref) (map cos pa) in
  let rowU := map2 Rmult (map (fun i => i * pf) I_ref) (map sin pa) in
  let scaled := fun f (row : vec R) =>
    map2 (fun i p => xmul (Fin i) (spdust_scaling_px f fr p c)) row fp in
  compute_spdust_emission_pol_numba fs I_ref fr fp c pa pf =
  Ok (map (fun f => [scaled f I_ref; scaled f rowQ; scaled f rowU]) fs).
Proof.
  intros Hc Efp Epa rowQ rowU scaled.
  assert (EQr : length rowQ = length I_ref).
  { unfold rowQ. rewrite map2_length; rewrite !length_map; congruence. }
  assert (EUr : length rowU = length I_ref).
  { unfold rowU. rewrite map2_length; rewrite !length_map; congruence. }
  unfold compute_spdust_emission_pol_numba.
  apply mapM_ok_map. intros f _.
  rewrite parfor_zip_same by (rewrite !length_map; congruence).
  cbn [bind]. fold rowQ. rewrite (assign_bcast_same _ rowQ EQr). cbn [bind].
  rewrite parfor_zip_same by (rewrite !length_map; congruence).
  cbn [bind]. fold rowU. rewrite (assign_bcast_same _ rowU EUr). cbn [bind].
  rewrite spdust_scaling_closed by assumption. cbn [bind mapM].
  pose proof (spdust_row_closed I_ref f fr fp c Efp) as HI.
  pose proof (spdust_row_closed rowQ f fr fp c ltac:(congruence)) as HQ.
  pose proof (spdust_row_closed rowU f fr fp c ltac:(congruence)) as HU.
  cbv zeta in HI, HQ, HU. rewrite EQr in HQ. rewrite EUr in HU.
  rewrite HI. cbn [bind]. rewrite HQ. cbn [bind]. rewrite HU. reflexivity.
Qed.

(** X19: the intensity block of the polarized model is the output of the
    unpolarized model built from the same template, table and peak map. *)
Theorem X19_spdustpol_intensity_is_spdust :
  forall (map_I peak angle_Q angle_U : vec R)
         (freq_ref_I freq_ref_peak pol_frac : R) (c : curve)
         (freqs : freq_input) (fs : vec R),
    c <> [] -> length peak = length map_I ->
    length angle_Q = length map_I -> length angle_U = length map_I ->
    check_freq_input freqs = Ok fs ->
    exists (pol : SpDustPol.t) (out_pol out : arr3 xreal),
      SpDustPol.__init__ map_I freq_ref_I c (PeakMap peak) freq_ref_peak
                         pol_frac angle_Q angle_U = Ok pol /\
      SpDustPol.get_emission pol freqs = Ok out_pol /\
      SpDust.get_emission
        (SpDust.__init__ map_I freq_ref_I c (PeakMap peak) freq_ref_peak) freqs
        = Ok out /\
      map (fun block => [nth 0 block []]) out_pol = out.
Proof.
  intros map_I peak aQ aU fr frp pf c freqs fs Hc Ep EQ EU Hf.
  set (base := SpDust.__init__ map_I fr c (PeakMap peak) frp).
  set (pa := map2 np_arctan2 aU aQ).
  assert (Epa : length pa = length map_I).
  { unfold pa. rewrite map2_length; congruence. }
  assert (Efp : length (SpDust.freq_peak base) = length map_I).
  { unfold base. simpl. now rewrite length_map. }
  exists {| SpDustPol.base := base; SpDustPol.pol_angle := pa;
            SpDustPol.pol_frac := pf |}.
  pose proof (spdustpol_emission_closed fs map_I fr (SpDust.freq_peak base) c pa pf
                Hc Efp Epa) as Hpol. cbv zeta in Hpol.
  pose proof (spdust_emission_closed fs map_I fr (SpDust.freq_peak base) c Hc Efp)
    as Hint.
  eexists. eexists. split.
  { unfold SpDustPol.__init__. fold base.
    rewrite broadcast_same by congruence. reflexivity. }
  split.
  { unfold SpDustPol.get_emission. rewrite Hf. cbn [bind].
    cbn [SpDustPol.base SpDustPol.pol_angle SpDustPol.pol_frac].
    change (SpDust.I_ref base) with map_I.
    change (SpDust.freq_ref_I base) with fr.
    change (SpDust.emissivity base) with c. exact Hpol. }
  split.
  { unfold SpDust.get_emission. rewrite Hf. cbn [bind].
    change (SpDust.I_ref base) with map_I.
    change (SpDust.freq_ref_I base) with fr.
    change (SpDust.emissivity base) with c. exact Hint. }
  rewrite map_map. reflexivity.
Qed.

Lemma X19_witness :
  exists (pol : SpDustPol.t) (out_pol out : arr3 xreal),
    SpDustPol.__init__ [1; 2] 30 [(0.5, 1); (1, 2); (2, 1)] (PeakMap [30; 60]) 30
                       0.1 [1; 0] [0; 1] = Ok pol /\
    SpDustPol.get_emission pol (FArray [30; 45]) = Ok out_pol /\
    SpDust.get_emission
      (SpDust.__init__ [1; 2] 30 [(0.5, 1); (1, 2); (2, 1)] (PeakMap [30; 60]) 30)
      (FArray [30; 45]) = Ok out /\
    map (fun block => [nth 0 block []]) out_pol = out.
Proof.
  apply (X19_spdustpol_intensity_is_spdust [1; 2] [30; 60] [1; 0] [0; 1] 30 30 0.1
           [(0.5, 1); (1, 2); (2, 1)] (FArray [30; 45]) [30; 45]);
    try reflexivity.
  - discriminate.
  - apply check_freq_input_array_ok; [discriminate|repeat constructor; lra].
Defined.

(** The entries of the polarized output, as a lemma for the properties
    below. *)
Lemma spdustpol_entries (map_I peak aQ aU : vec R) (fr frp pf : R) (c : curve)
    (freqs : freq_input) (fs : vec R) :
  c <> [] -> length peak = length map_I ->
  length aQ = length map_I -> length aU = length map_I ->
  check_freq_input freqs = Ok fs ->
  exists (pol : SpDustPol.t) (out : arr3 xreal),
    SpDustPol.__init__ map_I fr c (PeakMap peak) frp pf aQ aU = Ok pol /\
    SpDustPol.get_emission pol freqs = Ok out /\
    forall i x, (i < length fs)%nat -> (x < length map_I)%nat ->
      let s := spdust_scaling_px (nth i fs 0) fr
                 (xdiv (Fin (nth x peak 0)) (Fin frp)) c in
      let angle := np_arctan2 (nth x aU 0) (nth x aQ 0) in
      nth x (nth 0 (nth i out []) []) NaN = xmul (Fin (nth x map_I 0)) s /\
      nth x (nth 1 (nth i out []) []) NaN =
        xmul (Fin (nth x map_I 0 * pf * cos angle)) s /\
      nth x (nth 2 (nth i out []) []) NaN =
        xmul (Fin (nth x map_I 0 * pf * sin angle)) s.
Proof.
  intros Hc Ep EQ EU Hf.
  set (base := SpDust.__init__ map_I fr c (PeakMap peak) frp).
  set (pa := map2 np_arctan2 aU aQ).
  assert (Epa : length pa = length map_I).
  { unfold pa. rewrite map2_length; congruence. }
  set (fp := SpDust.freq_peak base).
  assert (Efp : length fp = length map_I).
  { unfold fp, base. simpl. now rewrite length_map. }
  pose proof (spdustpol_emission_closed fs map_I fr fp c pa pf Hc Efp Epa) as Hpol.
  cbv zeta in Hpol.
  exists {| SpDustPol.base := base; SpDustPol.pol_angle := pa;
            SpDustPol.pol_frac := pf |}.
  eexists. split.
  { unfold SpDustPol.__init__. fold base.
    rewrite broadcast_same by congruence. reflexivity. }
  split.
  { unfold SpDustPol.get_emission. rewrite Hf. cbn [bind].
    cbn [SpDustPol.base SpDustPol.pol_angle SpDustPol.pol_frac].
    change (SpDust.I_ref base) with map_I.
    change (SpDust.freq_ref_I base) with fr.
    change (SpDust.emissivity base) with c. fold fp. exact Hpol. }
  intros i x Hi Hx s angle.
  rewrite (nth_map_in _ fs 0 [] i Hi). cbn [nth].
  assert (Hfpx : nth x fp NaN = xdiv (Fin (nth x peak 0)) (Fin frp)).
  { unfold fp, base. simpl.
    now rewrite (nth_map_in _ peak 0 NaN x) by congruence. }
  assert (Hpax : nth x pa 0 = angle).
  { unfold pa, angle. rewrite (map2_nth _ _ _ 0 0) by congruence. reflexivity. }
  assert (ELQ : length (map2 Rmult (map (fun i => i * pf) map_I) (map cos pa))
                = length map_I).
  { rewrite map2_length; rewrite !length_map; congruence. }
  assert (ELU : length (map2 Rmult (map (fun i => i * pf) map_I) (map sin pa))
                = length map_I).
  { rewrite map2_length; rewrite !length_map; congruence. }
  rewrite !(map2_nth _ _ _ 0 NaN) by congruence.
  rewrite Hfpx. fold s. repeat split.
  - rewrite (map2_nth _ _ _ 0 0) by (rewrite !length_map; congruence).
    rewrite (nth_map_in _ map_I 0 0 x Hx).
    rewrite (nth_map_in _ pa 0 0 x) by congruence. now rewrite Hpax.
  - rewrite (map2_nth _ _ _ 0 0) by (rewrite !length_map; congruence).
    rewrite (nth_map_in _ map_I 0 0 x Hx).
    rewrite (nth_map_in _ pa 0 0 x) by congruence. now rewrite Hpax.
Qed.

Lemma arctan2_direction (y x : R) :
  sin (np_arctan2 y x) * x = cos (np_arctan2 y x) * y.
Proof.
  assert (Hatan : forall z, sin (atan z) = z * cos (atan z)).
  { intros z. pose proof (atan_bound z) as [Hlo Hhi].
    assert (Hc : cos (atan z) <> 0).
    { apply Rgt_not_eq. apply cos_gt_0; lra. }
    rewrite <- (tan_atan z) at 2. unfold tan. field. exact Hc. }
  unfold np_arctan2.
  destruct (Rlt_dec 0 x) as [Hx|Hx].
  - rewrite Hatan. field. lra.
  - destruct (Rlt_dec x 0) as [Hx'|Hx'].
    + destruct (Rlt_dec y 0).
      * rewrite sin_minus, cos_minus, sin_PI, cos_PI, Hatan. field. lra.
      * rewrite sin_plus, cos_plus, sin_PI, cos_PI, Hatan. field. lra.
    + assert (x = 0) by lra. subst x.
      destruct (Rlt_dec 0 y).
      * rewrite cos_PI2. lra.
      * destruct (Rlt_dec y 0).
        -- rewrite cos_neg, cos_PI2. lra.
        -- assert (y = 0) by lra. subst y. lra.
Qed.

(** X20: where the frequency scaling is a finite number, the polarized
    amplitude of the output is the polarization fraction times the
    intensity: [Q^2 + U^2 = (pol_frac * I)^2]. *)
Theorem X20_spdustpol_polarized_amplitude :
  forall (map_I peak angle_Q angle_U : vec R)
         (freq_ref_I freq_ref_peak pol_frac : R) (c : curve)
         (freqs : freq_input) (fs : vec R) (i x : nat) (sigma : R),
    c <> [] -> length peak = length map_I ->
    length angle_Q = length map_I -> length angle_U = length map_I ->
    check_freq_input freqs = Ok fs ->
    (i < length fs)%nat -> (x < length map_I)%nat ->
    spdust_scaling_px (nth i fs 0) freq_ref_I
      (xdiv (Fin (nth x peak 0)) (Fin freq_ref_peak)) c = Fin sigma ->
    exists (pol : SpDustPol.t) (out : arr3 xreal) (iota q u : R),
      SpDustPol.__init__ map_I freq_ref_I c (PeakMap peak) freq_ref_peak
                         pol_frac angle_Q angle_U = Ok pol /\
      SpDustPol.get_emission pol freqs = Ok out /\
      nth x (nth 0 (nth i out []) []) NaN = Fin iota /\
      nth x (nth 1 (nth i out []) []) NaN = Fin q /\
      nth x (nth 2 (nth i out []) []) NaN = Fin u /\
      q ^ 2 + u ^ 2 = (pol_frac * iota) ^ 2.
Proof.
  intros map_I peak aQ aU fr frp pf c freqs fs i x sigma Hc Ep EQ EU Hf Hi Hx Hs.
  destruct (spdustpol_entries map_I peak aQ aU fr frp pf c freqs fs Hc Ep EQ EU Hf)
    as (pol & out & Hinit & Hout & Hent).
  destruct (Hent i x Hi Hx) as (HI & HQ & HU). rewrite Hs in HI, HQ, HU.
  cbn [xmul] in HI, HQ, HU.
  exists pol, out. eexists. eexists. eexists.
  repeat (split; [eassumption|]).
  set (a := np_arctan2 (nth x aU 0) (nth x aQ 0)).
  pose proof (sin2_cos2 a) as Htrig. unfold Rsqr in Htrig. nra.
Qed.

Lemma X20_witness :
  exists (pol : SpDustPol.t) (out : arr3 xreal) (iota q u : R),
    SpDustPol.__init__ [1; 2] 30 [(0.5, 1); (1, 2); (2, 1)] (PeakMap [30; 60]) 30
                       0.1 [1; 0] [0; 1] = Ok pol /\
    SpDustPol.get_emission pol (FArray [30; 45]) = Ok out /\
    nth 0 (nth 0 (nth 0 out []) []) NaN = Fin iota /\
    nth 0 (nth 1 (nth 0 out []) []) NaN = Fin q /\
    nth 0 (nth 2 (nth 0 out []) []) NaN = Fin u /\
    q ^ 2 + u ^ 2 = (0.1 * iota) ^ 2.
Proof.
  apply (X20_spdustpol_polarized_amplitude [1; 2] [30; 60] [1; 0] [0; 1] 30 30 0.1
           [(0.5, 1); (1, 2); (2, 1)] (FArray [30; 45]) [30; 45] 0 0 1);
    try reflexivity; try (simpl; lia).
  - discriminate.
  - apply check_freq_input_array_ok; [discriminate|repeat constructor; lra].
  - cbn [nth]. rewrite xdiv_fin by lra.
    apply (spdust_scaling_px_anchor 30 (Fin (30 / 30)) _ 1); [lra| |lra].
    rewrite xdiv_fin by lra.
    unfold interp_val, np_interp, interp_scan. decide_R. reflexivity.
Defined.

(** X21: where the frequency scaling is a finite number, the output keeps
    the polarization direction of the angle maps given to the constructor:
    [Q_out * angle_U = U_out * angle_Q] in every pixel. *)
Theorem X21_spdustpol_polarization_direction :
  forall (map_I peak angle_Q angle_U : vec R)
         (freq_ref_I freq_ref_peak pol_frac : R) (c : curve)
         (freqs : freq_input) (fs : vec R) (i x : nat) (sigma : R),
    c <> [] -> length peak = length map_I ->
    length angle_Q = length map_I -> length angle_U = length map_I ->
    check_freq_input freqs = Ok fs ->
    (i < length fs)%nat -> (x < length map_I)%nat ->
    spdust_scaling_px (nth i fs 0) freq_ref_I
      (xdiv (Fin (nth x peak 0)) (Fin freq_ref_peak)) c = Fin sigma ->
    exists (pol : SpDustPol.t) (out : arr3 xreal) (q u : R),
      SpDustPol.__init__ map_I freq_ref_I c (PeakMap peak) freq_ref_peak
                         pol_frac angle_Q angle_U = Ok pol /\
      SpDustPol.get_emission pol freqs = Ok out /\
      nth x (nth 1 (nth i out []) []) NaN = Fin q /\
      nth x (nth 2 (nth i out []) []) NaN = Fin u /\
      q * nth x angle_U 0 = u * nth x angle_Q 0.
Proof.
  intros map_I peak aQ aU fr frp pf c freqs fs i x sigma Hc Ep EQ EU Hf Hi Hx Hs.
  destruct (spdustpol_entries map_I peak aQ aU fr frp pf c freqs fs Hc Ep EQ EU Hf)
    as (pol & out & Hinit & Hout & Hent).
  destruct (Hent i x Hi Hx) as (_ & HQ & HU). rewrite Hs in HQ, HU.
  cbn [xmul] in HQ, HU.
  exists pol, out. eexists. eexists.
  repeat (split; [eassumption|]).
  pose proof (arctan2_direction (nth x aU 0) (nth x aQ 0)) as Hdir.
  set (a := np_arctan2 (nth x aU 0) (nth x aQ 0)) in *.
  transitivity (nth x map_I 0 * pf * sigma * (cos a * nth x aU 0)); [ring|].
  rewrite <- Hdir. ring.
Qed.

Lemma X21_witness :
  exists (pol : SpDustPol.t) (out : arr3 xreal) (q u : R),
    SpDustPol.__init__ [1; 2] 30 [(0.5, 1); (1, 2); (2, 1)] (PeakMap [30; 60]) 30
                       0.1 [1; 0] [0; 1] = Ok pol /\
    SpDustPol.get_emission pol (FArray [30; 45]) = Ok out /\
    nth 0 (nth 1 (nth 0 out []) []) NaN = Fin q /\
    nth 0 (nth 2 (nth 0 out []) []) NaN = Fin u /\
    q * nth 0 [0; 1] 0 = u * nth 0 [1; 0] 0.
Proof.
  apply (X21_spdustpol_polarization_direction [1; 2] [30; 60] [1; 0] [0; 1] 30 30 0.1
           [(0.5, 1); (1, 2); (2, 1)] (FArray [30; 45]) [30; 45] 0 0 1);
    try reflexivity; try (simpl; lia).
  - discriminate.
  - apply check_freq_input_array_ok; [discriminate|repeat constructor; lra].
  - cbn [nth]. rewrite xdiv_fin by lra.
    apply (spdust_scaling_px_anchor 30 (Fin (30 / 30)) _ 1); [lra| |lra].
    rewrite xdiv_fin by lra.
    unfold interp_val, np_interp, interp_scan. decide_R. reflexivity.
Defined.

Lemma check_freq_input_nonempty (freqs : freq_input) (fs : vec R) :
  check_freq_input freqs = Ok fs -> fs <> [].
Proof.
  unfold check_freq_input. destruct freqs as [f|l].
  - destruct (all_positive [f]); [|discriminate]. intros [= <-]. discriminate.
  - destruct l as [|x l]; [discriminate|].
    destruct (all_positive (x :: l)); [|discriminate]. intros [= <-]. discriminate.
Qed.

(** X22: the polarized constructor refuses angle maps whose lengths differ
    when neither is a single value: [np.arctan2] cannot broadcast them. *)
Theorem X22_spdustpol_init_rejects_mismatched_angles :
  forall (map_I : vec R) (freq_ref_I : R) (c : curve) (freq_peak : peak_input)
         (freq_ref_peak pol_frac : R) (angle_Q angle_U : vec R),
    length angle_U <> length angle_Q ->
    length angle_U <> 1%nat -> length angle_Q <> 1%nat ->
    SpDustPol.__init__ map_I freq_ref_I c freq_peak freq_ref_peak pol_frac
                       angle_Q angle_U = Raise ValueError.
Proof.
  intros map_I fr c fp frp pf aQ aU H1 H2 H3.
  unfold SpDustPol.__init__, broadcast.
  apply Nat.eqb_neq in H1, H2, H3. rewrite H1, H2, H3. reflexivity.
Qed.

Lemma X22_witness :
  SpDustPol.__init__ [1; 2; 3] 30 [(0.5, 1); (1, 2)] (PeakMap [30; 30; 30]) 30 0.1
                     [1; 0; 0] [0; 1] = Raise ValueError.
Proof.
  apply (X22_spdustpol_init_rejects_mismatched_angles [1; 2; 3] 30 [(0.5, 1); (1, 2)]
           (PeakMap [30; 30; 30]) 30 0.1 [1; 0; 0] [0; 1]); simpl; lia.
Defined.

Lemma spdust_scaling_outcome (f fr : R) (fp : vec xreal) (c : curve) :
  (exists s, compute_spdust_scaling_numba f fr fp c = Ok s /\ length s = length fp)
  \/ compute_spdust_scaling_numba f fr fp c = Raise ValueError.
Proof.
  destruct c as [|pt rest].
  - destruct fp as [|p fp]; [left|right; reflexivity].
    exists []. split; reflexivity.
  - left. rewrite spdust_scaling_closed by discriminate.
    eexists. split; [reflexivity|]. now rewrite length_map.
Qed.

(** X23: a peak-frequency map whose length differs from the pixel count
    of the template (neither being 1, so that no broadcasting rule could
    reconcile them) makes every evaluation fail: the scaling has the
    length of the peak map and cannot be multiplied with the template, so
    no emission is returned. *)
Theorem X23_spdust_get_emission_rejects_mismatched_peak_map :
  forall (map_I peak : vec R) (freq_ref_I freq_ref_peak : R) (c : curve)
         (freqs : freq_input) (fs : vec R),
    length peak <> length map_I ->
    length peak <> 1%nat -> length map_I <> 1%nat ->
    check_freq_input freqs = Ok fs ->
    is_ok (SpDust.get_emission
             (SpDust.__init__ map_I freq_ref_I c (PeakMap peak) freq_ref_peak)
             freqs) = false.
Proof.
  intros map_I peak fr frp c freqs fs Hn _ _ Hf.
  unfold SpDust.get_emission. rewrite Hf. cbn [bind].
  cbn [SpDust.__init__ SpDust.I_ref SpDust.freq_ref_I SpDust.freq_peak
       SpDust.emissivity].
  unfold compute_spdust_emission_numba.
  apply check_freq_input_nonempty in Hf.
  destruct fs as [|f fs]; [contradiction|]. cbn [mapM].
  set (fp := map (fun p => xdiv (Fin p) (Fin frp)) peak).
  assert (Efp : length fp = length peak) by (unfold fp; now rewrite length_map).
  destruct (spdust_scaling_outcome f fr fp c) as [(s & -> & Hs) | ->];
    cbn [bind]; [|reflexivity].
  rewrite Efp in Hs.
  unfold parfor_zip. rewrite length_map, Hs.
  assert (E1 : (length map_I =? length peak)%nat = false)
    by (apply Nat.eqb_neq; congruence).
  rewrite E1. reflexivity.
Qed.

Lemma X23_witness :
  is_ok (SpDust.get_emission
           (SpDust.__init__ [1; 2; 3] 30 [(0.5, 1); (1, 2)] (PeakMap [30; 60]) 30)
           (FArray [30])) = false.
Proof.
  apply (X23_spdust_get_emission_rejects_mismatched_peak_map [1; 2; 3] [30; 60]
           30 30 [(0.5, 1); (1, 2)] (FArray [30]) [30]).
  - simpl; lia.
  - simpl; lia.
  - simpl; lia.
  - apply check_freq_input_array_ok; [discriminate|repeat constructor; lra].
Defined.

Lemma last_default_indep {A} (d d' : A) (l : list A) :
  l <> [] -> List.last l d = List.last l d'.
Proof.
  induction l as [|a l IH]; intros Hl; [contradiction|].
  destruct l as [|b l]; [reflexivity|].
  change (List.last (b :: l) d = List.last (b :: l) d'). apply IH. discriminate.
Qed.

Lemma last_cons_default {A} (a d : A) (l : list A) :
  List.last (a :: l) d = List.last l a.
Proof.
  destruct l as [|b l]; [reflexivity|].
  change (List.last (b :: l) d = List.last (b :: l) a).
  apply last_default_indep. discriminate.
Qed.

Lemma interp_scan_beyond (r x0 y0 : R) (rest : curve) :
  Forall (fun xy => fst xy <= r) rest ->
  interp_scan r x0 y0 rest = snd (List.last rest (x0, y0)).
Proof.
  intros Hall. revert x0 y0. induction Hall as [|[x1 y1] rest Hx _ IH]; intros x0 y0.
  - reflexivity.
  - cbn [interp_scan]. cbn [fst] in Hx.
    destruct (Rlt_dec r x1); [lra|]. rewrite IH.
    now rewrite last_cons_default.
Qed.

Lemma interp_val_beyond (r : R) (c : curve) :
  c <> [] -> Forall (fun xy => fst xy <= r) c ->
  interp_val (Fin r) c = Fin (snd (List.last c (0, 0))).
Proof.
  intros Hc Hall. destruct c as [|[x0 y0] rest]; [contradiction|].
  inversion Hall as [|? ? Hx Hrest]; subst. cbn [fst] in Hx.
  unfold interp_val, np_interp. destruct (Rlt_dec r x0); [lra|].
  rewrite interp_scan_beyond by assumption.
  now rewrite last_cons_default.
Qed.

(** X25: beyond the table the scaling is the pure power law.  When both
    [freq / freq_peak] and [freq_ref_I / freq_peak] lie at or above every
    sample point, both interpolations return the last amplitude, and if
    that amplitude is not zero the scaling of the pixel is
    [(freq_ref_I / freq) ^ 2]. *)
Theorem X25_spdust_scaling_beyond_table :
  forall (freq freq_ref_I : R) (peaks : vec R) (c : curve),
    c <> [] -> freq <> 0 ->
    Forall (fun p => 0 < p) peaks ->
    Forall (fun p => Forall (fun xy => fst xy <= freq / p) c) peaks ->
    Forall (fun p => Forall (fun xy => fst xy <= freq_ref_I / p) c) peaks ->
    snd (List.last c (0, 0)) <> 0 ->
    compute_spdust_scaling_numba freq freq_ref_I (map Fin peaks) c =
    Ok (map (fun _ => Fin ((freq_ref_I / freq) ^ 2)) peaks).
Proof.
  intros f fr peaks c Hc Hf Hpos Hhi Hhir Hlast.
  rewrite spdust_scaling_closed by assumption. f_equal.
  rewrite map_map. apply map_ext_in. intros p Hp.
  rewrite List.Forall_forall in Hpos, Hhi, Hhir.
  specialize (Hpos p Hp). specialize (Hhi p Hp). specialize (Hhir p Hp).
  unfold spdust_scaling_px. rewrite !xdiv_fin by lra.
  rewrite !interp_val_beyond by assumption.
  unfold xsquare. cbn [xmul]. rewrite xdiv_fin by assumption.
  f_equal. field. auto.
Qed.

Lemma X25_witness :
  compute_spdust_scaling_numba 90 60 (map Fin [30]) [(0.5, 1); (1, 2); (2, 1)] =
  Ok (map (fun _ => Fin ((60 / 90) ^ 2)) [30]).
Proof.
  apply (X25_spdust_scaling_beyond_table 90 60 [30] [(0.5, 1); (1, 2); (2, 1)]).
  - discriminate.
  - lra.
  - repeat constructor; lra.
  - repeat constructor; cbn [fst]; lra.
  - repeat constructor; cbn [fst]; lra.
  - cbn. lra.
Defined.

(** ** Sums and entries of products *)

Lemma rsum_ext (f g : nat -> R) (n : nat) :
  (forall k, (k < n)%nat -> f k = g k) -> rsum f n = rsum g n.
Proof.
  revert f g. induction n as [|n IH]; intros f g H; [reflexivity|].
  cbn [rsum]. rewrite (H 0%nat) by lia. f_equal.
  apply IH. intros k Hk. apply H. lia.
Qed.

Lemma rsum_zero (n : nat) : rsum (fun _ => 0) n = 0.
Proof. induction n as [|n IH]; [reflexivity|]. cbn [rsum]. rewrite IH. lra. Qed.

Lemma rsum_plus (f g : nat -> R) (n : nat) :
  rsum (fun k => f k + g k) n = rsum f n + rsum g n.
Proof.
  revert f g. induction n as [|n IH]; intros f g; cbn [rsum]; [lra|].
  rewrite (IH (fun k => f (S k)) (fun k => g (S k))). lra.
Qed.

Lemma rsum_scal (c : R) (f : nat -> R) (n : nat) :
  rsum (fun k => c * f k) n = c * rsum f n.
Proof.
  revert f. induction n as [|n IH]; intros f; cbn [rsum]; [lra|].
  rewrite (IH (fun k => f (S k))). lra.
Qed.

Lemma rsum_swap (f : nat -> nat -> R) (n m : nat) :
  rsum (fun i => rsum (fun j => f i j) m) n =
  rsum (fun j => rsum (fun i => f i j) n) m.
Proof.
  revert f. induction n as [|n IH]; intros f; cbn [rsum].
  - now rewrite rsum_zero.
  - rewrite (IH (fun i j => f (S i) j)). now rewrite <- rsum_plus.
Qed.

Lemma rsum_delta (f : nat -> R) (n i : nat) :
  (i < n)%nat -> rsum (fun k => if (i =? k)%nat then f k else 0) n = f i.
Proof.
  revert f i. induction n as [|n IH]; intros f i Hi; [lia|].
  cbn [rsum]. destruct i as [|i].
  - cbn [Nat.eqb]. rewrite rsum_zero. lra.
  - cbn [Nat.eqb]. rewrite (IH (fun k => f (S k)) i) by lia. lra.
Qed.

Lemma dotp_rsum (u v : vec R) :
  length v = length u ->
  dotp u v = rsum (fun k => nth k u 0 * nth k v 0) (length u).
Proof.
  revert v. induction u as [|x u IH]; intros [|y v] E; try discriminate;
    [reflexivity|].
  unfold dotp in *. cbn [map2 fold_right length rsum nth]. f_equal.
  apply IH. simpl in E. lia.
Qed.

Lemma entry_transpose (r c : nat) (m : matrix R) (i j : nat) :
  (0 < r)%nat -> is_shape r c m -> (i < c)%nat -> (j < r)%nat ->
  entry 0 (transpose m) i j = entry 0 m j i.
Proof.
  intros Hr [Hl Hrows] Hi Hj. destruct m as [|row m]; [simpl in Hl; lia|].
  unfold entry, transpose.
  assert (Hrow : length row = c) by now inversion Hrows.
  rewrite (nth_map_in (fun j0 => col j0 (row :: m)) (seq 0 (length row)) 0%nat [] i)
    by (rewrite length_seq; lia).
  rewrite seq_nth by lia. cbn [Nat.add]. unfold col.
  now rewrite (nth_map_in (fun r0 => nth i r0 0) (row :: m) [] 0 j) by lia.
Qed.

Lemma entry_diag (w : vec R) (i j : nat) :
  (i < length w)%nat -> (j < length w)%nat ->
  entry 0 (diag w) i j = if (i =? j)%nat then nth i w 0 else 0.
Proof.
  intros Hi Hj. unfold entry, diag.
  rewrite (nth_map_in _ (seq 0 (length w)) 0%nat [] i) by now rewrite length_seq.
  rewrite seq_nth by assumption. cbn [Nat.add].
  rewrite (nth_map_in _ (seq 0 (length w)) 0%nat 0 j) by now rewrite length_seq.
  rewrite seq_nth by assumption. reflexivity.
Qed.

(** An entry of a product is the sum of the products along the row and
    the column. *)
Lemma entry_dot (r k c : nat) (a b p : matrix R) (i j : nat) :
  (0 < k)%nat -> is_shape r k a -> is_shape k c b -> dot a b = Ok p ->
  (i < r)%nat -> (j < c)%nat ->
  entry 0 p i j = rsum (fun t => entry 0 a i t * entry 0 b t j) k.
Proof.
  intros Hk Ha Hb Hdot Hi Hj.
  pose proof (transpose_shape k c b Hk Hb) as [Htl Htr].
  destruct Ha as [Hal Har]. destruct Hb as [Hbl Hbr].
  rewrite dot_ok in Hdot by (rewrite Hbl; exact Har). injection Hdot as <-.
  unfold entry at 1.
  rewrite (nth_map_in (fun row => map (dotp row) (transpose b)) a [] [] i) by lia.
  rewrite (nth_map_in (dotp (nth i a [])) (transpose b) [] 0 j) by lia.
  assert (Hrow : length (nth i a []) = k).
  { rewrite List.Forall_forall in Har. apply Har, nth_In. lia. }
  assert (Hcol : length (nth j (transpose b) []) = k).
  { rewrite List.Forall_forall in Htr. apply Htr, nth_In. lia. }
  rewrite dotp_rsum by congruence. rewrite Hrow.
  apply rsum_ext. intros t Ht. unfold entry. f_equal.
  change (nth t (nth j (transpose b) []) 0) with (entry 0 (transpose b) j t).
  now rewrite (entry_transpose k c b j t Hk (conj Hbl Hbr) Hj Ht).
Qed.

Lemma rsum_scal_r (c : R) (f : nat -> R) (n : nat) :
  rsum (fun k => f k * c) n = rsum f n * c.
Proof.
  rewrite Rmult_comm, <- rsum_scal. apply rsum_ext. intros. ring.
Qed.

Lemma rsum_mul_rsum (f g : nat -> R) (n m : nat) :
  rsum f n * rsum g m = rsum (fun k => rsum (fun k' => f k * g k') m) n.
Proof.
  rewrite <- rsum_scal_r. apply rsum_ext. intros k _. now rewrite rsum_scal.
Qed.

(** A sum over a pair of orthonormal families collapses to the diagonal. *)
Lemma rsum_sandwich (a c : nat -> R) (B : nat -> nat -> R) (n : nat) :
  (forall k k', (k < n)%nat -> (k' < n)%nat ->
     rsum (fun j => B j k * B j k') n = if (k =? k')%nat then 1 else 0) ->
  rsum (fun j => rsum (fun k => a k * B j k) n
                 * rsum (fun k' => B j k' * c k') n) n
  = rsum (fun k => a k * c k) n.
Proof.
  intros Ho.
  transitivity
    (rsum (fun j => rsum (fun k => rsum (fun k' =>
        (a k * B j k) * (B j k' * c k')) n) n) n).
  { apply rsum_ext. intros j _. apply rsum_mul_rsum. }
  rewrite (rsum_swap (fun j k => rsum (fun k' =>
             (a k * B j k) * (B j k' * c k')) n)).
  apply rsum_ext. intros k Hk.
  rewrite (rsum_swap (fun j k' => (a k * B j k) * (B j k' * c k'))).
  transitivity (rsum (fun k' => if (k =? k')%nat then a k * c k' else 0) n).
  { apply rsum_ext. intros k' Hk'.
    transitivity (rsum (fun j => (a k * c k') * (B j k * B j k')) n).
    { apply rsum_ext. intros. ring. }
    rewrite rsum_scal, Ho by assumption. destruct (k =? k')%nat; ring. }
  now apply (rsum_delta (fun k' => a k * c k')).
Qed.

Lemma fold_left_Rmin_le (l : vec R) (x : R) :
  fold_left Rmin l x <= x /\ Forall (fun y => fold_left Rmin l x <= y) l.
Proof.
  revert x. induction l as [|y l IH]; intros x; cbn [fold_left].
  - split; [lra|constructor].
  - destruct (IH (Rmin x y)) as [H1 H2].
    pose proof (Rmin_l x y). pose proof (Rmin_r x y).
    split; [lra|]. constructor; [lra|exact H2].
Qed.

(** [np.min] is below every element. *)
Lemma np_min_le (w : vec R) (wmin : R) (k : nat) :
  np_min w = Ok wmin -> (k < length w)%nat -> wmin <= nth k w 0.
Proof.
  destruct w as [|x w]; [discriminate|]. intros [= <-] Hk.
  destruct (fold_left_Rmin_le w x) as [H1 H2]. destruct k as [|k]; [exact H1|].
  cbn [nth]. rewrite List.Forall_forall in H2. apply H2, nth_In.
  simpl in Hk. lia.
Qed.

(** The entries of [v . diag(1/w) . v^T]. *)
Lemma reconstruct_inverse_entries (n : nat) (w : vec R) (v inv : matrix R)
    (i j : nat) :
  (0 < n)%nat -> length w = n -> is_shape n n v ->
  reconstruct_inverse w v = Ok inv -> (i < n)%nat -> (j < n)%nat ->
  entry 0 inv i j
  = rsum (fun k => entry 0 v i k * (1 / nth k w 0) * entry 0 v j k) n.
Proof.
  intros Hn Hw Hv Hinv Hi Hj. unfold reconstruct_inverse in Hinv.
  pose proof (diag_is_shape (map (fun x => 1 / x) w)) as Hd.
  rewrite length_map, Hw in Hd.
  pose proof (transpose_shape n n v Hn Hv) as Ht.
  destruct (dot_shape n n n _ _ Hn Hd Ht) as (inner & Einner & Hinner).
  rewrite Einner in Hinv. cbn [bind] in Hinv.
  rewrite (entry_dot n n n v inner inv i j Hn Hv Hinner Hinv Hi Hj).
  apply rsum_ext. intros k Hk. rewrite Rmult_assoc. f_equal.
  rewrite (entry_dot n n n _ _ inner k j Hn Hd Ht Einner Hk Hj).
  transitivity
    (rsum (fun t => if (k =? t)%nat
                    then 1 / nth t w 0 * entry 0 v j t else 0) n).
  { apply rsum_ext. intros t Ht'.
    rewrite entry_diag by (rewrite length_map; lia).
    rewrite (entry_transpose n n v t j Hn Hv Ht' Hj).
    rewrite (nth_map_in (fun x => 1 / x) w 0 0 k) by lia.
    destruct (k =? t)%nat eqn:E; [|ring].
    apply Nat.eqb_eq in E. now subst t. }
  now apply (rsum_delta (fun t => 1 / nth t w 0 * entry 0 v j t)).
Qed.

(** X13: when the eigensolver returns an orthogonal matrix [v] and
    positive eigenvalues [w] with [m = v . diag(w) . v^T], [invert_safe]
    returns in its first pass, and what it returns is the inverse of [m]:
    [np.dot(invert_safe(m), m)] is the identity matrix. *)
Theorem X13_invert_safe_inverts :
  forall `{LinAlg} (n : nat) (m : matrix R) (w : vec R) (v : matrix R)
         (wmin : R) (fuel : nat),
    (0 < n)%nat -> is_shape n n m ->
    eigh m = (w, v) -> length w = n -> is_shape n n v ->
    np_min w = Ok wmin -> 0 < wmin ->
    (forall i j, (i < n)%nat -> (j < n)%nat ->
       entry 0 m i j
       = rsum (fun k => entry 0 v i k * nth k w 0 * entry 0 v j k) n) ->
    (forall k k', (k < n)%nat -> (k' < n)%nat ->
       rsum (fun j => entry 0 v j k * entry 0 v j k') n
       = if (k =? k')%nat then 1 else 0) ->
    (forall i l, (i < n)%nat -> (l < n)%nat ->
       rsum (fun k => entry 0 v i k * entry 0 v l k) n
       = if (i =? l)%nat then 1 else 0) ->
    exists inv prod,
      invert_safe (S fuel) m = Ok inv /\ dot inv m = Ok prod /\
      forall i l, (i < n)%nat -> (l < n)%nat ->
        entry 0 prod i l = if (i =? l)%nat then 1 else 0.
Proof.
  intros HL n m w v wmin fuel Hn Hm He Hw Hv Hmin Hpos Hdec Hcols Hrows.
  destruct (reconstruct_inverse_shape n w v Hn Hw Hv) as (inv & Hinv & Hshape).
  destruct (dot_shape n n n inv m Hn Hshape Hm) as (prod & Hprod & _).
  exists inv, prod. split; [|split; [exact Hprod|]].
  { unfold invert_safe.
    rewrite (invert_safe_loop_positive fuel m w v wmin He Hmin Hpos).
    exact Hinv. }
  intros i l Hi Hl.
  rewrite (entry_dot n n n inv m prod i l Hn Hshape Hm Hprod Hi Hl).
  transitivity
    (rsum (fun j =>
       rsum (fun k => (entry 0 v i k * (1 / nth k w 0)) * entry 0 v j k) n
       * rsum (fun k' => entry 0 v j k' * (nth k' w 0 * entry 0 v l k')) n) n).
  { apply rsum_ext. intros j Hj.
    rewrite (reconstruct_inverse_entries n w v inv i j Hn Hw Hv Hinv Hi Hj).
    rewrite (Hdec j l Hj Hl). f_equal. apply rsum_ext. intros. ring. }
  rewrite (rsum_sandwich (fun k => entry 0 v i k * (1 / nth k w 0))
             (fun k' => nth k' w 0 * entry 0 v l k')
             (fun j k => entry 0 v j k) n Hcols).
  rewrite <- (Hrows i l Hi Hl). apply rsum_ext. intros k Hk.
  assert (wmin <= nth k w 0) by (apply np_min_le; [assumption|lia]).
  field. lra.
Qed.

Lemma X13_witness :
  exists inv prod,
    @invert_safe Demo.diag_eigh 1 [[2; 0]; [0; 4]] = Ok inv /\
    dot inv [[2; 0]; [0; 4]] = Ok prod /\
    forall i l, (i < 2)%nat -> (l < 2)%nat ->
      entry 0 prod i l = if (i =? l)%nat then 1 else 0.
Proof.
  apply (@X13_invert_safe_inverts Demo.diag_eigh 2 [[2; 0]; [0; 4]]
           [2; 4] [[1; 0]; [0; 1]] 2 0%nat).
  - lia.
  - split; [reflexivity|]. repeat constructor.
  - reflexivity.
  - reflexivity.
  - split; [reflexivity|]. repeat constructor.
  - cbn [np_min fold_left]. f_equal. apply Rmin_left. lra.
  - lra.
  - intros [|[|i]] [|[|j]] Hi Hj; try lia; cbn [rsum entry nth]; lra.
  - intros [|[|i]] [|[|j]] Hi Hj; try lia; cbn [rsum entry nth Nat.eqb]; lra.
  - intros [|[|i]] [|[|j]] Hi Hj; try lia; cbn [rsum entry nth Nat.eqb]; lra.
Defined.
